(** * Majority element and sequence alignment notebooks

  A shallow embedding of the two notebooks of the repository:

  - the majority-element notebook ([is_majority_element],
    [naive_algorithm], [_divide_and_conquer],
    [divide_and_conquer_algorithm], [_candidate_majority_element],
    [boyer_moore_algorithm]);
  - the longest-common-subsequence notebook
    ([needleman_wunsch_algorithm], [_alignment_score_init],
    [_alignment_score_step], [longest_common_subsequence]).

  Python integers are [Z], Python lists and strings are [list]s, and a
  Python function that can raise returns a [result]. *)

From stdpp Require Import base tactics option list list_numbers strings pretty gmap.

Local Open Scope Z_scope.

(** ** The fragment of the Python runtime the notebooks use *)

Module Py.

(** The exceptions the notebooks' code can raise. *)
Inductive exn : Type :=
| IndexError
| NameError (name : string)
| RecursionError.

Inductive result (A : Type) : Type :=
| Ok (v : A)
| Raise (e : exn).
Global Arguments Ok {A} v.
Global Arguments Raise {A} e.

Global Instance result_ret : MRet result := λ A v, Ok v.

Global Instance result_bind : MBind result := λ A B f r,
  match r with
  | Ok v => f v
  | Raise e => Raise e
  end.

(** [len(l)] *)
Definition len {A} (l : list A) : Z := Z.of_nat (length l).

(** [range(n)] *)
Definition range (n : Z) : list Z := seqZ 0 n.

(** [max(a, b, c)] on integers *)
Definition max3 (a b c : Z) : Z := Z.max (Z.max a b) c.

(** Subscript normalisation: an index in [0, n) is used as it is, an
    index in [-n, 0) counts from the end, anything else is an
    [IndexError]. *)
Definition position (n : nat) (i : Z) : result nat :=
  if bool_decide (0 ≤ i < Z.of_nat n) then Ok (Z.to_nat i)
  else if bool_decide (- Z.of_nat n ≤ i < 0) then Ok (Z.to_nat (Z.of_nat n + i))
  else Raise IndexError.

(** [l[i]] *)
Definition getitem {A} (l : list A) (i : Z) : result A :=
  k ← position (length l) i;
  match l !! k with
  | Some x => Ok x
  | None => Raise IndexError
  end.

(** [l[i] = x], returning the list after the assignment *)
Definition setitem {A} (l : list A) (i : Z) (x : A) : result (list A) :=
  k ← position (length l) i;
  Ok (<[k:=x]> l).

(** [D[i][j]] and [D[i][j] = x] on a list of rows.  The rows of the
    tables below are built by a comprehension, so no two rows are the
    same object and the assignment changes one row only. *)
Definition getitem2 {A} (D : list (list A)) (i j : Z) : result A :=
  row ← getitem D i;
  getitem row j.

Definition setitem2 {A} (D : list (list A)) (i j : Z) (x : A)
  : result (list (list A)) :=
  row ← getitem D i;
  row' ← setitem row j x;
  setitem D i row'.

(** [D[i][j][k]] and [D[i][j][k] = x] *)
Definition getitem3 {A} (D : list (list (list A))) (i j k : Z) : result A :=
  plane ← getitem D i;
  getitem2 plane j k.

Definition setitem3 {A} (D : list (list (list A))) (i j k : Z) (x : A)
  : result (list (list (list A))) :=
  plane ← getitem D i;
  plane' ← setitem2 plane j k x;
  setitem D i plane'.

(** The entry of a table at a row and a column counted from [0], if the
    table has one there. *)
Definition cell2 {A} (D : list (list A)) (i j : nat) : option A :=
  row ← D !! i; row !! j.

Definition cell3 {A} (D : list (list (list A))) (i j k : nat) : option A :=
  plane ← D !! i; cell2 plane j k.

(** [for x in xs: body], threading the state the body updates. *)
Fixpoint for_ {X S} (xs : list X) (body : X → S → result S) (s : S)
  : result S :=
  match xs with
  | [] => Ok s
  | x :: xs' => s' ← body x s; for_ xs' body s'
  end.

End Py.

Import Py.

(** ** Finding a majority element in a list *)

Module Majority.

(** [a.count(element)] *)
Fixpoint count (element : Z) (a : list Z) : Z :=
  match a with
  | [] => 0
  | x :: a' => (if decide (x = element) then 1 else 0) + count element a'
  end.

(** [a.count(element) > len(a) // 2] *)
Definition is_majority_element (element : Z) (a : list Z) : bool :=
  bool_decide (count element a > len a / 2).

(** The loop of [naive_algorithm] over the elements still to visit. *)
Fixpoint naive_loop (a rest : list Z) : Z :=
  match rest with
  | [] => -1
  | element :: rest' =>
      if is_majority_element element a then element
      else naive_loop a rest'
  end.

Definition naive_algorithm (a : list Z) : Z := naive_loop a a.

(** A slice bound is clipped to the list: a negative bound counts from
    the end and stops at [0], a bound past the end stops at [len(a)]. *)
Definition slice_bound (n i : Z) : Z :=
  if decide (i < 0) then Z.max (i + n) 0 else Z.min i n.

(** [a[left:right]] *)
Definition slice (a : list Z) (left right : Z) : list Z :=
  let lo := slice_bound (len a) left in
  let hi := slice_bound (len a) right in
  take (Z.to_nat (hi - lo)) (drop (Z.to_nat lo) a).

(** A call of a global name with the three arguments [(a, left, right)]
    looks the name up when the call is made; [call] is that lookup
    followed by the call. *)
Definition _divide_and_conquer
    (call : string → list Z → Z → Z → result Z)
    (a : list Z) (left right : Z) : result Z :=
  if decide (left = right) then mret (-1)
  else if decide (left + 1 = right) then getitem a left
  else
    let m := left + (right - left) / 2 in
    left_element ← call "_get_majority_element" a left m;
    right_element ← call "_get_majority_element" a m right;
    let b := slice a left right in
    if decide (left_element = -1 ∧ right_element ≠ -1) then
      mret (if bool_decide (count right_element b > len b / 2)
            then right_element else -1)
    else if decide (left_element ≠ -1 ∧ right_element = -1) then
      mret (if bool_decide (count left_element b > len b / 2)
            then left_element else -1)
    else if decide (left_element ≠ -1 ∧ right_element ≠ -1) then
      if bool_decide (count left_element b > len b / 2) then
        mret left_element
      else if bool_decide (count right_element b > len b / 2) then
        mret right_element
      else mret (-1)
    else mret (-1).

(** What a global name of the notebook is bound to: the function
    [_divide_and_conquer], or another object (an import, or a function
    with other parameters). *)
Inductive object : Type :=
| Def_divide_and_conquer
| Other_object.

(** Every global name the notebook binds, by [import] or by [def]. *)
Definition notebook_globals : gmap string object :=
  list_to_map
    [ ("given", Other_object);
      ("st", Other_object);
      ("is_majority_element", Other_object);
      ("naive_algorithm", Other_object);
      ("_divide_and_conquer", Def_divide_and_conquer);
      ("divide_and_conquer_algorithm", Other_object);
      ("test_divide_and_conquer_algorithm", Other_object);
      ("_candidate_majority_element", Other_object);
      ("boyer_moore_algorithm", Other_object);
      ("test_boyer_moore_algorithm", Other_object) ].

(** Calling a global name with [(a, left, right)]: an unbound name is a
    [NameError]; [_divide_and_conquer] runs its body, whose own calls go
    through the same globals, [depth] being the interpreter's remaining
    recursion depth; what a call of another object does is left to
    [other_call]. *)
Fixpoint call_global (other_call : string → list Z → Z → Z → result Z)
    (globals : gmap string object) (depth : nat)
    (name : string) (a : list Z) (left right : Z) : result Z :=
  match globals !! name with
  | None => Raise (NameError name)
  | Some Other_object => other_call name a left right
  | Some Def_divide_and_conquer =>
      match depth with
      | O => Raise RecursionError
      | S depth' =>
          _divide_and_conquer (call_global other_call globals depth')
            a left right
      end
  end.

Definition divide_and_conquer_algorithm
    (other_call : string → list Z → Z → Z → result Z) (depth : nat)
    (a : list Z) : result Z :=
  call_global other_call notebook_globals depth
    "_get_majority_element" a 0 (len a).

(** The globals the body of [_divide_and_conquer] asks for: the name it
    calls bound to the function itself. *)
Definition renamed_globals : gmap string object :=
  <[ "_get_majority_element" := Def_divide_and_conquer ]> notebook_globals.

(** One pass of the loop body of [_candidate_majority_element] on the
    pair [(candidate, count)]. *)
Definition candidate_step (element : Z) (state : Z * Z) : result (Z * Z) :=
  let '(candidate, count) := state in
  let count :=
    if decide (candidate = element) then count + 1 else count - 1 in
  if decide (count = 0) then mret (element, 1)
  else mret (candidate, count).

Definition _candidate_majority_element (a : list Z) : result Z :=
  candidate ← getitem a 0;
  '(candidate, _) ← for_ a candidate_step (candidate, 1);
  mret candidate.

(** How far [x] is ahead in a state of the vote: the count when [x] is
    the candidate, and one minus the count when it is not. *)
Definition lead (x : Z) (state : Z * Z) : Z :=
  let '(candidate, count) := state in
  if decide (candidate = x) then count else 1 - count.

Definition boyer_moore_algorithm (a : list Z) : result Z :=
  if decide (len a = 0) then mret (-1)
  else
    candidate_element ← _candidate_majority_element a;
    if is_majority_element candidate_element a then mret candidate_element
    else mret (-1).

End Majority.

Import Majority.

(** ** Sequence alignment and longest common subsequences *)

Module Alignment.

Section Sequences.

(** The symbols of the sequences, compared with [==]. *)
Context {A : Type} `{EqDecision A}.

Definition _alignment_score_init (m n sigma : Z) : result (list (list Z)) :=
  let D := (λ i, (λ j, 0) <$> range (n + 1)) <$> range (m + 1) in
  D ← for_ (range (m + 1)) (λ i D, setitem2 D i 0 (sigma * i)) D;
  for_ (range (n + 1)) (λ j D, setitem2 D 0 j (sigma * j)) D.

Definition _alignment_score_step (D : list (list Z)) (i j : Z)
    (s1 s2 : list A) (mu sigma : Z) : result (list (list Z)) :=
  c1 ← getitem s1 (i - 1);
  c2 ← getitem s2 (j - 1);
  insertion ← (x ← getitem2 D i (j - 1); mret (x + sigma));
  deletion ← (x ← getitem2 D (i - 1) j; mret (x + sigma));
  match_ ← (x ← getitem2 D (i - 1) (j - 1); mret (x + 1));
  mismatch ← (x ← getitem2 D (i - 1) (j - 1); mret (x + mu));
  if decide (c1 = c2) then setitem2 D i j (max3 insertion deletion match_)
  else setitem2 D i j (max3 insertion deletion mismatch).

(** The table [D] of [needleman_wunsch_algorithm] as it stands at the
    [return]. *)
Definition needleman_wunsch_table (s1 s2 : list A) (mu sigma : Z)
  : result (list (list Z)) :=
  let m := len s1 in
  let n := len s2 in
  D ← _alignment_score_init m n sigma;
  for_ (range m) (λ i D,
    for_ (range n) (λ j D,
      _alignment_score_step D (i + 1) (j + 1) s1 s2 mu sigma) D) D.

Definition needleman_wunsch_algorithm (s1 s2 : list A) (mu sigma : Z)
  : result Z :=
  D ← needleman_wunsch_table s1 s2 mu sigma;
  getitem2 D (len s1) (len s2).

(** One pass of the innermost loop body of [longest_common_subsequence]. *)
Definition lcs_step (D : list (list (list Z))) (i j k : Z)
    (s1 s2 s3 : list A) : result (list (list (list Z))) :=
  c1 ← getitem s1 i;
  c2 ← getitem s2 j;
  all_equal ←
    (if decide (c1 = c2) then
       c2' ← getitem s2 j;
       c3 ← getitem s3 k;
       mret (bool_decide (c2' = c3))
     else mret false);
  if all_equal : bool then
    x ← getitem3 D i j k;
    setitem3 D (i + 1) (j + 1) (k + 1) (x + 1)
  else
    x ← getitem3 D (i + 1) (j + 1) k;
    y ← getitem3 D (i + 1) j (k + 1);
    z ← getitem3 D i (j + 1) (k + 1);
    setitem3 D (i + 1) (j + 1) (k + 1) (max3 x y z).

(** The table [D] of [longest_common_subsequence] as it stands at the
    [return]. *)
Definition longest_common_subsequence_table (s1 s2 s3 : list A)
  : result (list (list (list Z))) :=
  let '(m, n, p) := (len s1, len s2, len s3) in
  let D :=
    (λ i, (λ j, (λ k, 0) <$> range (p + 1)) <$> range (n + 1))
      <$> range (m + 1) in
  for_ (range m) (λ i D,
    for_ (range n) (λ j D,
      for_ (range p) (λ k D, lcs_step D i j k s1 s2 s3) D) D) D.

Definition longest_common_subsequence (s1 s2 s3 : list A) : result Z :=
  D ← longest_common_subsequence_table s1 s2 s3;
  getitem3 D (len s1) (len s2) (len s3).

(** *** The tables as the specification words them *)

(** [Table[i][0] = gapPenalty*i], [Table[0][j] = gapPenalty*j], and for
    [i, j >= 1] the maximum of insertion, deletion and match-or-mismatch. *)
Fixpoint spec_Table (s1 s2 : list A) (mismatchPenalty gapPenalty : Z)
    (i : nat) : nat → Z :=
  match i with
  | O => λ j, gapPenalty * Z.of_nat j
  | S i' =>
      fix row (j : nat) : Z :=
        match j with
        | O => gapPenalty * Z.of_nat (S i')
        | S j' =>
            let diagonal :=
              spec_Table s1 s2 mismatchPenalty gapPenalty i' j' in
            let match_or_mismatch :=
              if decide (s1 !! i' = s2 !! j') then diagonal + 1
              else diagonal + mismatchPenalty in
            let insertion := row j' + gapPenalty in
            let deletion :=
              spec_Table s1 s2 mismatchPenalty gapPenalty i' (S j')
              + gapPenalty in
            max3 insertion deletion match_or_mismatch
        end
  end.

(** Boundary planes zero; for [i, j, k >= 1] the diagonal plus one when
    the three symbols agree, else the maximum of the three neighbours with
    one index decremented. *)
Fixpoint spec_Table3 (s1 s2 s3 : list A) (i : nat) : nat → nat → Z :=
  match i with
  | O => λ _ _, 0
  | S i' =>
      fix plane (j : nat) : nat → Z :=
        match j with
        | O => λ _, 0
        | S j' =>
            fix line (k : nat) : Z :=
              match k with
              | O => 0
              | S k' =>
                  if decide (s1 !! i' = s2 !! j' ∧ s2 !! j' = s3 !! k')
                  then spec_Table3 s1 s2 s3 i' j' k' + 1
                  else max3 (line k') (plane j' (S k'))
                            (spec_Table3 s1 s2 s3 i' (S j') (S k'))
              end
        end
  end.

(** *** A reference definition of the length of a longest common
    subsequence, by enumeration *)

(** Every subsequence of [l] (its elements in order, any of them left
    out). *)
Fixpoint subsequences (l : list A) : list (list A) :=
  match l with
  | [] => [[]]
  | x :: l' => subsequences l' ++ (cons x <$> subsequences l')
  end.

(** Whether [w] appears in [l], in order and not necessarily
    contiguously. *)
Fixpoint is_subsequence (w l : list A) : bool :=
  match w, l with
  | [], _ => true
  | _ :: _, [] => false
  | x :: w', y :: l' =>
      if decide (x = y) then is_subsequence w' l' else is_subsequence w l'
  end.

(** [n] is the length of a longest common subsequence of [s1] and [s2]:
    some sequence of length [n] appears, in order and not necessarily
    contiguously, within both, and no longer one does. *)
Definition is_lcs_length (s1 s2 : list A) (n : nat) : Prop :=
  (∃ w, w `sublist_of` s1 ∧ w `sublist_of` s2 ∧ length w = n) ∧
  (∀ w, w `sublist_of` s1 → w `sublist_of` s2 → (length w ≤ n)%nat).

(** The greatest length of a subsequence of [s1] that is a subsequence of
    [s2] too. *)
Definition lcs_length (s1 s2 : list A) : nat :=
  max_list (length <$> filter (λ w, is_subsequence w s2) (subsequences s1)).

End Sequences.

(** *** Partly filled tables *)

(** [D] has [(m+1) × (n+1)] entries, and the entries at the positions in
    [known] are those of [T]. *)
Definition table2_upto (m n : nat) (known : nat → nat → Prop)
    (T : nat → nat → Z) (D : list (list Z)) : Prop :=
  (∀ i j, is_Some (cell2 D i j) ↔ (i ≤ m ∧ j ≤ n)%nat) ∧
  (∀ i j, (i ≤ m)%nat → (j ≤ n)%nat → known i j → cell2 D i j = Some (T i j)).

(** [D] has [(m+1) × (n+1) × (p+1)] entries, and the entries at the
    positions in [known] are those of [T]. *)
Definition table3_upto (m n p : nat) (known : nat → nat → nat → Prop)
    (T : nat → nat → nat → Z) (D : list (list (list Z))) : Prop :=
  (∀ i j k, is_Some (cell3 D i j k) ↔ (i ≤ m ∧ j ≤ n ∧ k ≤ p)%nat) ∧
  (∀ i j k, (i ≤ m)%nat → (j ≤ n)%nat → (k ≤ p)%nat → known i j k →
     cell3 D i j k = Some (T i j k)).

End Alignment.

Import Alignment.

(** ** The tests of the majority notebook *)

Module MajorityTests.

(** How a run of a test body on a list ends: it returns, an exception
    of the code it calls comes through, or its [assert] fails with the
    message. *)
Inductive outcome : Type :=
| Passed
| Errored (e : exn)
| AssertionError (msg : string).

(** ["Expected result {}; actual result {}.".format(expected, actual)] *)
Definition msg_format (expected actual : Z) : string :=
  "Expected result " +:+ pretty expected +:+ "; actual result "
    +:+ pretty actual +:+ ".".

(** Calling a global name with the one argument [a]: an unbound name is
    a [NameError]; what the call of a bound object does is left to
    [other_call1]. *)
Definition call_global1 (other_call1 : string → list Z → result Z)
    (globals : gmap string object) (name : string) (a : list Z)
  : result Z :=
  match globals !! name with
  | None => Raise (NameError name)
  | Some _ => other_call1 name a
  end.

(** The body of [test_divide_and_conquer_algorithm], run on a list [a]. *)
Definition test_divide_and_conquer_algorithm
    (other_call : string → list Z → Z → Z → result Z) (depth : nat)
    (a : list Z) : outcome :=
  let expected := naive_algorithm a in
  match divide_and_conquer_algorithm other_call depth a with
  | Raise e => Errored e
  | Ok actual =>
      let msg := msg_format expected actual in
      if decide (expected = actual) then Passed else AssertionError msg
  end.

(** The body of [test_boyer_moore_algorithm], run on a list [a]. *)
Definition test_boyer_moore_algorithm
    (other_call1 : string → list Z → result Z) (a : list Z) : outcome :=
  match call_global1 other_call1 notebook_globals
          "naive_get_majority_element" a with
  | Raise e => Errored e
  | Ok expected =>
      match boyer_moore_algorithm a with
      | Raise e => Errored e
      | Ok actual =>
          let msg := msg_format expected actual in
          if decide (expected = actual) then Passed else AssertionError msg
      end
  end.

End MajorityTests.

Import MajorityTests.

(** ** A reference for the longest common subsequence of three *)

Module ThreeWayReference.

Section Sequences.

Context {A : Type} `{EqDecision A}.

(** [n] is the length of a longest common subsequence of [s1], [s2] and
    [s3]: some sequence of length [n] appears, in order and not
    necessarily contiguously, within the three, and no longer one does. *)
Definition is_lcs3_length (s1 s2 s3 : list A) (n : nat) : Prop :=
  (∃ w, w `sublist_of` s1 ∧ w `sublist_of` s2 ∧ w `sublist_of` s3 ∧
        length w = n) ∧
  (∀ w, w `sublist_of` s1 → w `sublist_of` s2 → w `sublist_of` s3 →
        (length w ≤ n)%nat).

(** The greatest length of a subsequence of [s1] that is a subsequence of
    [s2] and of [s3] too. *)
Definition lcs3_length (s1 s2 s3 : list A) : nat :=
  max_list (length <$>
    filter (λ w, is_subsequence w s2 && is_subsequence w s3)
      (subsequences s1)).

End Sequences.

End ThreeWayReference.

Import ThreeWayReference.

(** * Properties *)

(** ** Subscripts and loops *)

Lemma position_nat (n i : nat) : (i < n)%nat → position n (Z.of_nat i) = Ok i.
Proof.
  intros Hi. unfold position.
  rewrite bool_decide_eq_true_2 by lia. by rewrite Nat2Z.id.
Qed.

Lemma getitem_Some {A} (l : list A) (i : nat) x : l !! i = Some x → getitem l (Z.of_nat i) = Ok x.
Proof.
  intros Hx. unfold getitem.
  rewrite position_nat by (by eapply lookup_lt_Some). simpl. by rewrite Hx.
Qed.

Lemma setitem_Some {A} (l : list A) (i : nat) x :
  is_Some (l !! i) → setitem l (Z.of_nat i) x = Ok (<[i:=x]> l).
Proof.
  intros Hi%lookup_lt_is_Some. unfold setitem. by rewrite position_nat.
Qed.

Lemma getitem_empty {A} (i : Z) : getitem (@nil A) i = Raise IndexError.
Proof.
  unfold getitem, position. simpl.
  rewrite !bool_decide_eq_false_2 by lia. done.
Qed.

Lemma getitem2_cell {A} (D : list (list A)) (i j : nat) x :
  cell2 D i j = Some x → getitem2 D (Z.of_nat i) (Z.of_nat j) = Ok x.
Proof.
  unfold cell2, getitem2. destruct (D !! i) as [row|] eqn:Hrow; [|done].
  simpl. intros Hx. rewrite (getitem_Some _ _ _ Hrow). simpl.
  by apply getitem_Some.
Qed.

Lemma setitem2_cell {A} (D : list (list A)) (i j : nat) x :
  is_Some (cell2 D i j) →
  ∃ D', setitem2 D (Z.of_nat i) (Z.of_nat j) x = Ok D' ∧
    ∀ i' j', cell2 D' i' j' =
      if decide (i' = i ∧ j' = j) then Some x else cell2 D i' j'.
Proof.
  unfold cell2 at 1, setitem2. destruct (D !! i) as [row|] eqn:Hrow;
    simpl; [|by intros [? ?]].
  intros Hj. exists (<[i:=<[j:=x]> row]> D). split.
  - rewrite (getitem_Some _ _ _ Hrow). simpl.
    rewrite (setitem_Some _ _ _ Hj). simpl.
    by rewrite setitem_Some by (by rewrite Hrow).
  - intros i' j'. unfold cell2. destruct (decide (i' = i)) as [->|Hi].
    + rewrite list_lookup_insert_eq by (by eapply lookup_lt_Some). simpl.
      rewrite Hrow. simpl. destruct (decide (j' = j)) as [->|Hj'].
      * rewrite decide_True by done.
        apply list_lookup_insert_eq. by apply lookup_lt_is_Some.
      * rewrite decide_False by (intros [_ ?]; done).
        by apply list_lookup_insert_ne.
    + rewrite decide_False by (intros [? _]; done).
      by rewrite list_lookup_insert_ne.
Qed.

Lemma getitem3_cell {A} (C : list (list (list A))) (i j k : nat) x :
  cell3 C i j k = Some x →
  getitem3 C (Z.of_nat i) (Z.of_nat j) (Z.of_nat k) = Ok x.
Proof.
  unfold cell3, getitem3. destruct (C !! i) as [plane|] eqn:Hplane; [|done].
  simpl. intros Hx. rewrite (getitem_Some _ _ _ Hplane). simpl.
  by apply getitem2_cell.
Qed.

Lemma setitem3_cell {A} (C : list (list (list A))) (i j k : nat) x :
  is_Some (cell3 C i j k) →
  ∃ C', setitem3 C (Z.of_nat i) (Z.of_nat j) (Z.of_nat k) x = Ok C' ∧
    ∀ i' j' k', cell3 C' i' j' k' =
      if decide (i' = i ∧ j' = j ∧ k' = k) then Some x else cell3 C i' j' k'.
Proof.
  unfold cell3 at 1, setitem3. destruct (C !! i) as [plane|] eqn:Hplane;
    simpl; [|by intros [? ?]].
  intros Hjk. destruct (setitem2_cell plane j k x Hjk) as (plane' & Hset & Hget).
  exists (<[i:=plane']> C). split.
  - rewrite (getitem_Some _ _ _ Hplane). simpl. rewrite Hset. simpl.
    by rewrite setitem_Some by (by rewrite Hplane).
  - intros i' j' k'. unfold cell3. destruct (decide (i' = i)) as [->|Hi].
    + rewrite list_lookup_insert_eq by (by eapply lookup_lt_Some). simpl.
      rewrite Hplane, Hget. simpl. repeat case_decide; intuition congruence.
    + rewrite decide_False by (intros [? _]; done).
      by rewrite list_lookup_insert_ne.
Qed.

(** A loop over [range(n)] that keeps an invariant runs to its end. *)
Lemma for_range_invariant {S} (I : nat → S → Prop) (n : nat)
    (body : Z → S → result S) (s : S) :
  I 0%nat s →
  (∀ i s, (i < n)%nat → I i s →
     ∃ s', body (Z.of_nat i) s = Ok s' ∧ I (Datatypes.S i) s') →
  ∃ s', for_ (range (Z.of_nat n)) body s = Ok s' ∧ I n s'.
Proof.
  unfold range. intros Hs Hbody.
  cut (∀ k i s, (i + k = n)%nat → I i s →
         ∃ s', for_ (seqZ (Z.of_nat i) (Z.of_nat k)) body s = Ok s' ∧ I n s').
  { intros Hcut. apply (Hcut n 0%nat); [lia|done]. }
  clear s Hs. intros k. induction k as [|k IH]; intros i s Hik Hi.
  - exists s. split; [done|]. by replace n with i by lia.
  - rewrite seqZ_cons by lia.
    destruct (Hbody i s) as (s' & Hrun & Hs'); [lia|done|].
    cbn [for_]. rewrite Hrun. simpl.
    replace (Z.pred (Z.of_nat (Datatypes.S k))) with (Z.of_nat k) by lia.
    replace (Z.succ (Z.of_nat i)) with (Z.of_nat (Datatypes.S i)) by lia.
    apply IH; [lia|done].
Qed.

Lemma lookup_fmap_range {B} (f : Z → B) (n i : nat) :
  (f <$> range (Z.of_nat n)) !! i =
    if decide (i < n)%nat then Some (f (Z.of_nat i)) else None.
Proof.
  unfold range. rewrite list_lookup_fmap. case_decide.
  - rewrite lookup_seqZ_lt by lia. simpl. f_equal.
  - by rewrite lookup_seqZ_ge by lia.
Qed.

(** ** Partly filled tables *)

Lemma table2_upto_weaken m n (known known' : nat → nat → Prop) T D :
  (∀ i j, (i ≤ m)%nat → (j ≤ n)%nat → known' i j → known i j) →
  table2_upto m n known T D → table2_upto m n known' T D.
Proof. intros Hsub [Hshape Hknown]. split; auto. Qed.

Lemma table2_upto_update m n (known : nat → nat → Prop) T D D' i j :
  (i ≤ m)%nat → (j ≤ n)%nat →
  (∀ i' j', cell2 D' i' j' =
     if decide (i' = i ∧ j' = j) then Some (T i j) else cell2 D i' j') →
  table2_upto m n known T D →
  table2_upto m n (λ i' j', known i' j' ∨ (i' = i ∧ j' = j)) T D'.
Proof.
  intros Hi Hj Hget [Hshape Hknown]. split.
  - intros i' j'. rewrite Hget. case_decide as Hij; [|apply Hshape].
    destruct Hij as [-> ->]. split; [done|]. by eexists.
  - intros i' j' Hi' Hj' Hk. rewrite Hget. case_decide as Hij.
    + by destruct Hij as [-> ->].
    + destruct Hk as [Hk|Hk]; [auto|done].
Qed.

Lemma table3_upto_weaken m n p (known known' : nat → nat → nat → Prop) T D :
  (∀ i j k, (i ≤ m)%nat → (j ≤ n)%nat → (k ≤ p)%nat →
     known' i j k → known i j k) →
  table3_upto m n p known T D → table3_upto m n p known' T D.
Proof. intros Hsub [Hshape Hknown]. split; auto. Qed.

Lemma table3_upto_update m n p (known : nat → nat → nat → Prop) T D D' i j k :
  (i ≤ m)%nat → (j ≤ n)%nat → (k ≤ p)%nat →
  (∀ i' j' k', cell3 D' i' j' k' =
     if decide (i' = i ∧ j' = j ∧ k' = k) then Some (T i j k)
     else cell3 D i' j' k') →
  table3_upto m n p known T D →
  table3_upto m n p
    (λ i' j' k', known i' j' k' ∨ (i' = i ∧ j' = j ∧ k' = k)) T D'.
Proof.
  intros Hi Hj Hk Hget [Hshape Hknown]. split.
  - intros i' j' k'. rewrite Hget. case_decide as Hijk; [|apply Hshape].
    destruct Hijk as (-> & -> & ->). split; [done|]. by eexists.
  - intros i' j' k' Hi' Hj' Hk' Hkn. rewrite Hget. case_decide as Hijk.
    + by destruct Hijk as (-> & -> & ->).
    + destruct Hkn as [Hkn|Hkn]; [auto|done].
Qed.

(** ** The pairwise alignment table *)

Section Pairwise.

Context {A : Type} `{EqDecision A}.
Implicit Types (s : list A) (mu sigma : Z) (D : list (list Z)).

Lemma spec_Table_row0 (s1 s2 : list A) mu sigma (j : nat) :
  spec_Table s1 s2 mu sigma 0 j = sigma * Z.of_nat j.
Proof. reflexivity. Qed.

Lemma spec_Table_col0 (s1 s2 : list A) mu sigma (i : nat) :
  spec_Table s1 s2 mu sigma i 0 = sigma * Z.of_nat i.
Proof. by destruct i. Qed.

Lemma spec_Table_inner (s1 s2 : list A) mu sigma (i j : nat) :
  spec_Table s1 s2 mu sigma (S i) (S j) =
    max3 (spec_Table s1 s2 mu sigma (S i) j + sigma)
         (spec_Table s1 s2 mu sigma i (S j) + sigma)
         (if decide (s1 !! i = s2 !! j)
          then spec_Table s1 s2 mu sigma i j + 1
          else spec_Table s1 s2 mu sigma i j + mu).
Proof. reflexivity. Qed.

Lemma alignment_score_init_cells (m n : nat) sigma (T : nat → nat → Z) :
  (∀ i, T i 0%nat = sigma * Z.of_nat i) →
  (∀ j, T 0%nat j = sigma * Z.of_nat j) →
  ∃ D, _alignment_score_init (Z.of_nat m) (Z.of_nat n) sigma = Ok D ∧
    table2_upto m n (λ i j, i = 0%nat ∨ j = 0%nat) T D.
Proof.
  intros Hcol Hrow. unfold _alignment_score_init.
  replace (Z.of_nat m + 1) with (Z.of_nat (S m)) by lia.
  replace (Z.of_nat n + 1) with (Z.of_nat (S n)) by lia.
  set (D0 := (λ _, (λ _, 0) <$> range (Z.of_nat (S n))) <$> range (Z.of_nat (S m))).
  assert (HD0 : table2_upto m n (λ _ _, False) T D0).
  { split; [|done]. intros i j. unfold cell2, D0.
    rewrite lookup_fmap_range. case_decide; simpl.
    - rewrite lookup_fmap_range. case_decide.
      + split; [lia|by eexists].
      + split; [by intros [? ?]|lia].
    - split; [by intros [? ?]|lia]. }
  destruct (for_range_invariant
    (λ k D, table2_upto m n (λ i j, (i < k)%nat ∧ j = 0%nat) T D) (S m)
    (λ i D, setitem2 D i 0 (sigma * i)) D0) as (D1 & -> & HD1).
  { revert HD0. apply table2_upto_weaken. lia. }
  { intros i D Hi HD.
    destruct (setitem2_cell D i 0 (sigma * Z.of_nat i)) as (D' & Hset & Hget).
    { apply HD. lia. }
    exists D'. split; [done|]. rewrite <-Hcol in Hget.
    eapply table2_upto_weaken;
      [|eapply table2_upto_update; [| |exact Hget|exact HD]]; simpl; lia. }
  simpl.
  destruct (for_range_invariant
    (λ k D, table2_upto m n
       (λ i j, j = 0%nat ∨ (i = 0%nat ∧ (j < k)%nat)) T D) (S n)
    (λ j D, setitem2 D 0 j (sigma * j)) D1) as (D2 & -> & HD2).
  { revert HD1. apply table2_upto_weaken. lia. }
  { intros j D Hj HD.
    destruct (setitem2_cell D 0 j (sigma * Z.of_nat j)) as (D' & Hset & Hget).
    { apply HD. lia. }
    exists D'. split; [done|]. rewrite <-Hrow in Hget.
    eapply table2_upto_weaken;
      [|eapply table2_upto_update; [| |exact Hget|exact HD]]; simpl; lia. }
  exists D2. split; [done|].
  revert HD2. apply table2_upto_weaken. lia.
Qed.

Lemma alignment_score_step_cells D (i j : nat) (s1 s2 : list A) mu sigma
    c1 c2 ins del dia :
  s1 !! i = Some c1 → s2 !! j = Some c2 →
  cell2 D (S i) j = Some ins → cell2 D i (S j) = Some del →
  cell2 D i j = Some dia → is_Some (cell2 D (S i) (S j)) →
  ∃ D', _alignment_score_step D (Z.of_nat i + 1) (Z.of_nat j + 1)
          s1 s2 mu sigma = Ok D' ∧
    ∀ i' j', cell2 D' i' j' =
      if decide (i' = S i ∧ j' = S j)
      then Some (max3 (ins + sigma) (del + sigma)
                   (if decide (c1 = c2) then dia + 1 else dia + mu))
      else cell2 D i' j'.
Proof.
  intros Hc1 Hc2 Hins Hdel Hdia Hout. unfold _alignment_score_step.
  replace (Z.of_nat i + 1 - 1) with (Z.of_nat i) by lia.
  replace (Z.of_nat j + 1 - 1) with (Z.of_nat j) by lia.
  replace (Z.of_nat i + 1) with (Z.of_nat (S i)) by lia.
  replace (Z.of_nat j + 1) with (Z.of_nat (S j)) by lia.
  rewrite (getitem_Some _ _ _ Hc1), (getitem_Some _ _ _ Hc2). simpl.
  rewrite (getitem2_cell _ _ _ _ Hins), (getitem2_cell _ _ _ _ Hdel),
    (getitem2_cell _ _ _ _ Hdia). simpl.
  destruct (decide (c1 = c2)); by apply setitem2_cell.
Qed.

(** The table [needleman_wunsch_algorithm] has built when it returns is
    the specification's table, entry by entry, and has no other entry. *)
Lemma needleman_wunsch_table_spec (s1 s2 : list A) mu sigma :
  ∃ D, needleman_wunsch_table s1 s2 mu sigma = Ok D ∧
    table2_upto (length s1) (length s2) (λ _ _, True)
      (spec_Table s1 s2 mu sigma) D.
Proof.
  unfold needleman_wunsch_table, len.
  set (m := length s1). set (n := length s2).
  set (T := spec_Table s1 s2 mu sigma).
  destruct (alignment_score_init_cells m n sigma T) as (D0 & -> & HD0).
  { apply spec_Table_col0. }
  { apply spec_Table_row0. }
  simpl.
  destruct (for_range_invariant
    (λ a D, table2_upto m n (λ i j, (i ≤ a)%nat ∨ j = 0%nat) T D) m
    (λ i D, for_ (range (Z.of_nat n))
       (λ j D, _alignment_score_step D (i + 1) (j + 1) s1 s2 mu sigma) D)
    D0) as (D1 & -> & HD1).
  { revert HD0. apply table2_upto_weaken. lia. }
  { intros a D Ha HD.
    destruct (for_range_invariant
      (λ b D, table2_upto m n
         (λ i j, (i ≤ a)%nat ∨ j = 0%nat ∨ (i = S a ∧ (j ≤ b)%nat)) T D) n
      (λ j D, _alignment_score_step D (Z.of_nat a + 1) (j + 1) s1 s2 mu sigma)
      D) as (D' & -> & HD').
    { revert HD. apply table2_upto_weaken. lia. }
    { intros b E Hb HE. pose proof HE as [Hshape Hknown].
      destruct (lookup_lt_is_Some_2 s1 a) as [c1 Hc1]; [done|].
      destruct (lookup_lt_is_Some_2 s2 b) as [c2 Hc2]; [done|].
      destruct (alignment_score_step_cells E a b s1 s2 mu sigma c1 c2
        (T (S a) b) (T a (S b)) (T a b)) as (E' & Hstep & Hget);
        [done|done|apply Hknown; lia..|apply Hshape; lia|].
      exists E'. split; [done|].
      assert (Hget' : ∀ i' j', cell2 E' i' j' =
        if decide (i' = S a ∧ j' = S b) then Some (T (S a) (S b))
        else cell2 E i' j').
      { intros i' j'. rewrite Hget.
        destruct (decide (i' = S a ∧ j' = S b)); [|done]. f_equal.
        unfold T. rewrite spec_Table_inner, Hc1, Hc2.
        repeat case_decide; congruence. }
      generalize (table2_upto_update m n _ T E E' (S a) (S b)
        ltac:(lia) ltac:(lia) Hget' HE).
      apply table2_upto_weaken. lia. }
    exists D'. split; [done|].
    revert HD'. apply table2_upto_weaken. lia. }
  exists D1. split; [done|].
  revert HD1. apply table2_upto_weaken. lia.
Qed.

Lemma needleman_wunsch_result (s1 s2 : list A) mu sigma :
  needleman_wunsch_algorithm s1 s2 mu sigma =
    Ok (spec_Table s1 s2 mu sigma (length s1) (length s2)).
Proof.
  unfold needleman_wunsch_algorithm.
  destruct (needleman_wunsch_table_spec s1 s2 mu sigma) as (D & -> & _ & HD).
  simpl. apply getitem2_cell. by apply HD.
Qed.

(** C2: for all sequences and integer penalties, the pairwise routine
    builds exactly the [(m+1) × (n+1)] table of the specification's
    recurrence -- [Table[i][0] = gapPenalty*i], [Table[0][j] =
    gapPenalty*j], and for [i, j >= 1] the maximum of insertion, deletion
    and match-or-mismatch -- and returns [Table[m][n]]. *)
Theorem needleman_wunsch_follows_recurrence (s1 s2 : list A) (mu sigma : Z) :
  let Table := spec_Table s1 s2 mu sigma in
  (∀ i : nat, Table i 0%nat = sigma * Z.of_nat i) ∧
  (∀ j : nat, Table 0%nat j = sigma * Z.of_nat j) ∧
  (∀ i j : nat, Table (S i) (S j) =
     max3 (Table (S i) j + sigma) (Table i (S j) + sigma)
          (if decide (s1 !! i = s2 !! j) then Table i j + 1
           else Table i j + mu)) ∧
  ∃ D, needleman_wunsch_table s1 s2 mu sigma = Ok D ∧
    (∀ i j : nat, cell2 D i j =
       if decide (i ≤ length s1 ∧ j ≤ length s2)%nat
       then Some (Table i j) else None) ∧
    needleman_wunsch_algorithm s1 s2 mu sigma =
      Ok (Table (length s1) (length s2)).
Proof.
  intros Table. split; [apply spec_Table_col0|].
  split; [apply spec_Table_row0|]. split; [apply spec_Table_inner|].
  destruct (needleman_wunsch_table_spec s1 s2 mu sigma)
    as (D & HD & Hshape & Hknown).
  exists D. split; [done|]. split; [|apply needleman_wunsch_result].
  intros i j. case_decide as Hij.
  - destruct Hij as [? ?]. by apply Hknown.
  - apply eq_None_not_Some. by rewrite Hshape.
Qed.

End Pairwise.

(** ** The three-way table *)

Section ThreeWay.

Context {A : Type} `{EqDecision A}.

Lemma spec_Table3_boundary (s1 s2 s3 : list A) (i j k : nat) :
  i = 0%nat ∨ j = 0%nat ∨ k = 0%nat → spec_Table3 s1 s2 s3 i j k = 0.
Proof. destruct i, j, k; intros [?|[?|?]]; done. Qed.

Lemma spec_Table3_inner (s1 s2 s3 : list A) (i j k : nat) :
  spec_Table3 s1 s2 s3 (S i) (S j) (S k) =
    if decide (s1 !! i = s2 !! j ∧ s2 !! j = s3 !! k)
    then spec_Table3 s1 s2 s3 i j k + 1
    else max3 (spec_Table3 s1 s2 s3 (S i) (S j) k)
              (spec_Table3 s1 s2 s3 (S i) j (S k))
              (spec_Table3 s1 s2 s3 i (S j) (S k)).
Proof. reflexivity. Qed.

Lemma lcs_step_cells (D : list (list (list Z))) (i j k : nat)
    (s1 s2 s3 : list A) c1 c2 c3 dia x y z :
  s1 !! i = Some c1 → s2 !! j = Some c2 → s3 !! k = Some c3 →
  cell3 D i j k = Some dia →
  cell3 D (S i) (S j) k = Some x →
  cell3 D (S i) j (S k) = Some y →
  cell3 D i (S j) (S k) = Some z →
  is_Some (cell3 D (S i) (S j) (S k)) →
  ∃ D', lcs_step D (Z.of_nat i) (Z.of_nat j) (Z.of_nat k) s1 s2 s3 = Ok D' ∧
    ∀ i' j' k', cell3 D' i' j' k' =
      if decide (i' = S i ∧ j' = S j ∧ k' = S k)
      then Some (if decide (c1 = c2 ∧ c2 = c3) then dia + 1 else max3 x y z)
      else cell3 D i' j' k'.
Proof.
  intros Hc1 Hc2 Hc3 Hdia Hx Hy Hz Hout. unfold lcs_step.
  replace (Z.of_nat i + 1) with (Z.of_nat (S i)) by lia.
  replace (Z.of_nat j + 1) with (Z.of_nat (S j)) by lia.
  replace (Z.of_nat k + 1) with (Z.of_nat (S k)) by lia.
  rewrite (getitem_Some _ _ _ Hc1), (getitem_Some _ _ _ Hc2). simpl.
  destruct (decide (c1 = c2)) as [Heq|Hne]; simpl.
  - rewrite (getitem_Some _ _ _ Hc3). simpl.
    destruct (decide (c2 = c3)) as [Heq'|Hne'].
    + rewrite bool_decide_eq_true_2 by done.
      rewrite (getitem3_cell _ _ _ _ _ Hdia). simpl.
      rewrite decide_True by done. by apply setitem3_cell.
    + rewrite bool_decide_eq_false_2 by done.
      rewrite (getitem3_cell _ _ _ _ _ Hx), (getitem3_cell _ _ _ _ _ Hy),
        (getitem3_cell _ _ _ _ _ Hz). simpl.
      rewrite decide_False by (by intros [_ ?]). by apply setitem3_cell.
  - rewrite (getitem3_cell _ _ _ _ _ Hx), (getitem3_cell _ _ _ _ _ Hy),
      (getitem3_cell _ _ _ _ _ Hz). simpl.
    rewrite decide_False by (by intros [? _]). by apply setitem3_cell.
Qed.

(** The table [longest_common_subsequence] has built when it returns is
    the specification's table, entry by entry, and has no other entry. *)
Lemma longest_common_subsequence_table_spec (s1 s2 s3 : list A) :
  ∃ D, longest_common_subsequence_table s1 s2 s3 = Ok D ∧
    table3_upto (length s1) (length s2) (length s3) (λ _ _ _, True)
      (spec_Table3 s1 s2 s3) D.
Proof.
  unfold longest_common_subsequence_table, len.
  set (m := length s1). set (n := length s2). set (p := length s3).
  set (T := spec_Table3 s1 s2 s3).
  replace (Z.of_nat m + 1) with (Z.of_nat (S m)) by lia.
  replace (Z.of_nat n + 1) with (Z.of_nat (S n)) by lia.
  replace (Z.of_nat p + 1) with (Z.of_nat (S p)) by lia.
  set (D0 := (λ _, (λ _, (λ _, 0) <$> range (Z.of_nat (S p)))
                     <$> range (Z.of_nat (S n))) <$> range (Z.of_nat (S m))).
  assert (HD0 : table3_upto m n p
    (λ i j k, i = 0%nat ∨ j = 0%nat ∨ k = 0%nat) T D0).
  { assert (Hcell : ∀ i j k, cell3 D0 i j k =
      if decide (i ≤ m ∧ j ≤ n ∧ k ≤ p)%nat then Some 0 else None).
    { intros i j k. unfold cell3, cell2, D0.
      rewrite lookup_fmap_range. destruct (decide (i < S m)%nat); simpl;
        [|by rewrite decide_False by lia].
      rewrite lookup_fmap_range. destruct (decide (j < S n)%nat); simpl;
        [|by rewrite decide_False by lia].
      rewrite lookup_fmap_range. destruct (decide (k < S p)%nat); simpl;
        [by rewrite decide_True by lia|by rewrite decide_False by lia]. }
    split.
    - intros i j k. rewrite Hcell. case_decide; [by split; [|eexists]|].
      split; [by intros [? ?]|done].
    - intros i j k Hi Hj Hk Hb. rewrite Hcell, decide_True by done.
      unfold T. by rewrite spec_Table3_boundary. }
  destruct (for_range_invariant
    (λ a D, table3_upto m n p
       (λ i j k, (i ≤ a)%nat ∨ j = 0%nat ∨ k = 0%nat) T D) m
    (λ i D, for_ (range (Z.of_nat n))
       (λ j D, for_ (range (Z.of_nat p))
          (λ k D, lcs_step D i j k s1 s2 s3) D) D)
    D0) as (D1 & -> & HD1).
  { revert HD0. apply table3_upto_weaken. lia. }
  { intros a D Ha HD.
    destruct (for_range_invariant
      (λ b D, table3_upto m n p
         (λ i j k, (i ≤ a)%nat ∨ j = 0%nat ∨ k = 0%nat ∨
                   (i = S a ∧ (j ≤ b)%nat)) T D) n
      (λ j D, for_ (range (Z.of_nat p))
         (λ k D, lcs_step D (Z.of_nat a) j k s1 s2 s3) D)
      D) as (D' & -> & HD').
    { revert HD. apply table3_upto_weaken. lia. }
    { intros b E Hb HE.
      destruct (for_range_invariant
        (λ c D, table3_upto m n p
           (λ i j k, (i ≤ a)%nat ∨ j = 0%nat ∨ k = 0%nat ∨
                     (i = S a ∧ (j ≤ b)%nat) ∨
                     (i = S a ∧ j = S b ∧ (k ≤ c)%nat)) T D) p
        (λ k D, lcs_step D (Z.of_nat a) (Z.of_nat b) k s1 s2 s3)
        E) as (E' & -> & HE').
      { revert HE. apply table3_upto_weaken. lia. }
      { intros c F Hc HF. pose proof HF as [Hshape Hknown].
        destruct (lookup_lt_is_Some_2 s1 a) as [c1 Hc1]; [done|].
        destruct (lookup_lt_is_Some_2 s2 b) as [c2 Hc2]; [done|].
        destruct (lookup_lt_is_Some_2 s3 c) as [c3 Hc3]; [done|].
        destruct (lcs_step_cells F a b c s1 s2 s3 c1 c2 c3
          (T a b c) (T (S a) (S b) c) (T (S a) b (S c)) (T a (S b) (S c)))
          as (F' & Hstep & Hget);
          [done|done|done|apply Hknown; lia..|apply Hshape; lia|].
        exists F'. split; [done|].
        assert (Hget' : ∀ i' j' k', cell3 F' i' j' k' =
          if decide (i' = S a ∧ j' = S b ∧ k' = S c)
          then Some (T (S a) (S b) (S c)) else cell3 F i' j' k').
        { intros i' j' k'. rewrite Hget.
          destruct (decide (i' = S a ∧ j' = S b ∧ k' = S c)); [|done].
          f_equal. unfold T. rewrite spec_Table3_inner, Hc1, Hc2, Hc3.
          destruct (decide (c1 = c2 ∧ c2 = c3)) as [[? ?]|Hn1],
            (decide (Some c1 = Some c2 ∧ Some c2 = Some c3)) as [[? ?]|Hn2];
            try done; exfalso; [apply Hn2|apply Hn1]; split; congruence. }
        generalize (table3_upto_update m n p _ T F F' (S a) (S b) (S c)
          ltac:(lia) ltac:(lia) ltac:(lia) Hget' HF).
        apply table3_upto_weaken. lia. }
      exists E'. split; [done|].
      revert HE'. apply table3_upto_weaken. lia. }
    exists D'. split; [done|].
    revert HD'. apply table3_upto_weaken. lia. }
  exists D1. split; [done|].
  revert HD1. apply table3_upto_weaken. lia.
Qed.

Lemma longest_common_subsequence_result (s1 s2 s3 : list A) :
  longest_common_subsequence s1 s2 s3 =
    Ok (spec_Table3 s1 s2 s3 (length s1) (length s2) (length s3)).
Proof.
  unfold longest_common_subsequence.
  destruct (longest_common_subsequence_table_spec s1 s2 s3)
    as (D & -> & _ & HD).
  simpl. apply getitem3_cell. by apply HD.
Qed.

(** C3: for all three sequences, the three-way routine builds exactly the
    [(m+1) × (n+1) × (p+1)] table whose boundary planes are zero and whose
    entry at [i, j, k >= 1] is the diagonal entry plus one when the three
    symbols at [i-1], [j-1], [k-1] agree, and otherwise the maximum of the
    three neighbours with one index decremented; it returns
    [Table[m][n][p]]. *)
Theorem longest_common_subsequence_follows_recurrence (s1 s2 s3 : list A) :
  let Table := spec_Table3 s1 s2 s3 in
  (∀ j k : nat, Table 0%nat j k = 0) ∧
  (∀ i k : nat, Table i 0%nat k = 0) ∧
  (∀ i j : nat, Table i j 0%nat = 0) ∧
  (∀ i j k : nat, Table (S i) (S j) (S k) =
     if decide (s1 !! i = s2 !! j ∧ s2 !! j = s3 !! k)
     then Table i j k + 1
     else max3 (Table (S i) (S j) k) (Table (S i) j (S k))
               (Table i (S j) (S k))) ∧
  ∃ D, longest_common_subsequence_table s1 s2 s3 = Ok D ∧
    (∀ i j k : nat, cell3 D i j k =
       if decide (i ≤ length s1 ∧ j ≤ length s2 ∧ k ≤ length s3)%nat
       then Some (Table i j k) else None) ∧
    longest_common_subsequence s1 s2 s3 =
      Ok (Table (length s1) (length s2) (length s3)).
Proof.
  intros Table.
  split; [intros; apply spec_Table3_boundary; auto|].
  split; [intros; apply spec_Table3_boundary; auto|].
  split; [intros; apply spec_Table3_boundary; auto|].
  split; [apply spec_Table3_inner|].
  destruct (longest_common_subsequence_table_spec s1 s2 s3)
    as (D & HD & Hshape & Hknown).
  exists D. split; [done|].
  split; [|apply longest_common_subsequence_result].
  intros i j k. case_decide as Hijk.
  - destruct Hijk as (? & ? & ?). by apply Hknown.
  - apply eq_None_not_Some. by rewrite Hshape.
Qed.

(** C5: with one input empty the pairwise routine returns the gap
    penalty times the length of the other input, hence [0] under zero
    penalties; the three-way routine returns [0] as soon as one of its
    inputs is empty. *)
Theorem empty_input_boundary (s s' : list A) (mu sigma : Z) :
  needleman_wunsch_algorithm [] s mu sigma = Ok (sigma * len s) ∧
  needleman_wunsch_algorithm s [] mu sigma = Ok (sigma * len s) ∧
  needleman_wunsch_algorithm [] s 0 0 = Ok 0 ∧
  needleman_wunsch_algorithm s [] 0 0 = Ok 0 ∧
  longest_common_subsequence [] s s' = Ok 0 ∧
  longest_common_subsequence s [] s' = Ok 0 ∧
  longest_common_subsequence s s' [] = Ok 0.
Proof.
  rewrite !needleman_wunsch_result, !longest_common_subsequence_result.
  simpl length. rewrite !spec_Table_row0, !spec_Table_col0.
  rewrite !spec_Table3_boundary by auto. unfold len.
  rewrite Z.mul_0_l. repeat split.
Qed.

(** C8: both routines are total: on all finite sequences and all integer
    penalties each runs to its [return] and yields an integer; no
    subscript it evaluates is out of range. *)
Theorem alignment_routines_total (s1 s2 s3 : list A) (mu sigma : Z) :
  (∃ score : Z, needleman_wunsch_algorithm s1 s2 mu sigma = Ok score) ∧
  (∃ length : Z, longest_common_subsequence s1 s2 s3 = Ok length).
Proof.
  rewrite needleman_wunsch_result, longest_common_subsequence_result.
  eauto.
Qed.

(** Exchanging two of the sequences, and the two indices with them,
    leaves an entry of the specification's table as it is. *)
Lemma spec_Table3_swap12 (s1 s2 s3 : list A) (i j k : nat) :
  spec_Table3 s1 s2 s3 i j k = spec_Table3 s2 s1 s3 j i k.
Proof.
  remember (i + j + k)%nat as size eqn:Hsize. revert i j k Hsize.
  induction size as [size IH] using lt_wf_ind.
  intros [|i] [|j] [|k] ->; try (by rewrite !spec_Table3_boundary by auto).
  rewrite !spec_Table3_inner.
  rewrite (IH (i + j + k)%nat ltac:(lia) i j k eq_refl),
    (IH (S i + S j + k)%nat ltac:(lia) (S i) (S j) k eq_refl),
    (IH (S i + j + S k)%nat ltac:(lia) (S i) j (S k) eq_refl),
    (IH (i + S j + S k)%nat ltac:(lia) i (S j) (S k) eq_refl).
  destruct (decide (s1 !! i = s2 !! j ∧ s2 !! j = s3 !! k)) as [[? ?]|Hn1],
    (decide (s2 !! j = s1 !! i ∧ s1 !! i = s3 !! k)) as [[? ?]|Hn2];
    try done; try (exfalso; first [apply Hn2|apply Hn1]; split; congruence).
  unfold max3. lia.
Qed.

Lemma spec_Table3_swap23 (s1 s2 s3 : list A) (i j k : nat) :
  spec_Table3 s1 s2 s3 i j k = spec_Table3 s1 s3 s2 i k j.
Proof.
  remember (i + j + k)%nat as size eqn:Hsize. revert i j k Hsize.
  induction size as [size IH] using lt_wf_ind.
  intros [|i] [|j] [|k] ->; try (by rewrite !spec_Table3_boundary by auto).
  rewrite !spec_Table3_inner.
  rewrite (IH (i + j + k)%nat ltac:(lia) i j k eq_refl),
    (IH (S i + S j + k)%nat ltac:(lia) (S i) (S j) k eq_refl),
    (IH (S i + j + S k)%nat ltac:(lia) (S i) j (S k) eq_refl),
    (IH (i + S j + S k)%nat ltac:(lia) i (S j) (S k) eq_refl).
  destruct (decide (s1 !! i = s2 !! j ∧ s2 !! j = s3 !! k)) as [[? ?]|Hn1],
    (decide (s1 !! i = s3 !! k ∧ s3 !! k = s2 !! j)) as [[? ?]|Hn2];
    try done; try (exfalso; first [apply Hn2|apply Hn1]; split; congruence).
  unfold max3. lia.
Qed.

Lemma longest_common_subsequence_swap12 (s1 s2 s3 : list A) :
  longest_common_subsequence s1 s2 s3 = longest_common_subsequence s2 s1 s3.
Proof.
  rewrite !longest_common_subsequence_result. f_equal.
  apply spec_Table3_swap12.
Qed.

Lemma longest_common_subsequence_swap23 (s1 s2 s3 : list A) :
  longest_common_subsequence s1 s2 s3 = longest_common_subsequence s1 s3 s2.
Proof.
  rewrite !longest_common_subsequence_result. f_equal.
  apply spec_Table3_swap23.
Qed.

(** C4: the three-way routine returns the same integer on every one of
    the six orders of its three arguments. *)
Theorem longest_common_subsequence_symmetric (s1 s2 s3 : list A) :
  longest_common_subsequence s1 s3 s2 = longest_common_subsequence s1 s2 s3 ∧
  longest_common_subsequence s2 s1 s3 = longest_common_subsequence s1 s2 s3 ∧
  longest_common_subsequence s2 s3 s1 = longest_common_subsequence s1 s2 s3 ∧
  longest_common_subsequence s3 s1 s2 = longest_common_subsequence s1 s2 s3 ∧
  longest_common_subsequence s3 s2 s1 = longest_common_subsequence s1 s2 s3.
Proof.
  repeat split.
  - by rewrite longest_common_subsequence_swap23.
  - by rewrite longest_common_subsequence_swap12.
  - by rewrite longest_common_subsequence_swap23,
      longest_common_subsequence_swap12.
  - by rewrite longest_common_subsequence_swap12,
      longest_common_subsequence_swap23.
  - by rewrite longest_common_subsequence_swap12,
      longest_common_subsequence_swap23, longest_common_subsequence_swap12.
Qed.

End ThreeWay.

(** ** Longest common subsequences of two sequences *)

Section LongestCommon.

Context {A : Type} `{EqDecision A}.
Implicit Types (w l : list A) (x y : A).

Lemma is_subsequence_sublist w l :
  is_subsequence w l = true ↔ w `sublist_of` l.
Proof.
  revert w. induction l as [|y l IH]; intros [|x w]; simpl.
  - split; [constructor|done].
  - split; [done|by intros ?%sublist_nil_r].
  - split; [intros _; apply sublist_nil_l|done].
  - rewrite sublist_cons_r. case_decide as Hxy.
    + subst y. rewrite IH. split.
      * intros Hw. right. by exists w.
      * intros [Hw|(w' & [= ->] & Hw)]; [|done].
        etrans; [|exact Hw]. by constructor.
    + rewrite IH. split; [by left|].
      intros [Hw|(w' & [= ? ?] & Hw)]; [done|congruence].
Qed.

Lemma elem_of_subsequences w l : w ∈ subsequences l ↔ w `sublist_of` l.
Proof.
  revert w. induction l as [|x l IH]; intros w; simpl.
  - by rewrite list_elem_of_singleton, sublist_nil_r.
  - rewrite elem_of_app, list_elem_of_fmap, sublist_cons_r, IH.
    split; intros [?|(w' & -> & Hw)]; auto;
      right; exists w'; (split; [done|by apply IH]).
Qed.

(** The enumeration yields the length of a longest common subsequence. *)
Lemma lcs_length_spec (s1 s2 : list A) :
  is_lcs_length s1 s2 (lcs_length s1 s2).
Proof.
  unfold lcs_length.
  set (common := filter (λ w, is_subsequence w s2) (subsequences s1)).
  assert (Hcommon : ∀ w, w ∈ common ↔ w `sublist_of` s1 ∧ w `sublist_of` s2).
  { intros w. unfold common.
    rewrite list_elem_of_filter, elem_of_subsequences, Is_true_true,
      is_subsequence_sublist. tauto. }
  split.
  - assert (Hne : length <$> common ≠ []).
    { assert (Hnil : [] ∈ common) by (apply Hcommon; split; apply sublist_nil_l).
      intros Hempty%fmap_nil_inv. rewrite Hempty in Hnil. by inv Hnil. }
    apply max_list_elem_of, list_elem_of_fmap in Hne as (w & Hlen & Hw%Hcommon).
    exists w. by destruct Hw.
  - intros w Hw1 Hw2. apply max_list_elem_of_le, list_elem_of_fmap_2.
    by apply Hcommon.
Qed.

Lemma is_lcs_length_unique (s1 s2 : list A) (n n' : nat) :
  is_lcs_length s1 s2 n → is_lcs_length s1 s2 n' → n = n'.
Proof.
  intros [(w & Hw1 & Hw2 & <-) Hmax] [(w' & Hw1' & Hw2' & <-) Hmax'].
  apply Nat.le_antisymm; auto.
Qed.

Lemma is_lcs_length_nil_l (s : list A) : is_lcs_length [] s 0.
Proof.
  split.
  - exists []. split; [done|]. split; [apply sublist_nil_l|done].
  - by intros w ->%sublist_nil_r _.
Qed.

Lemma is_lcs_length_nil_r (s : list A) : is_lcs_length s [] 0.
Proof.
  split.
  - exists []. split; [apply sublist_nil_l|done].
  - by intros w _ ->%sublist_nil_r.
Qed.

Lemma sublist_snoc_r w l x :
  w `sublist_of` l ++ [x] ↔
    w `sublist_of` l ∨ ∃ w', w = w' ++ [x] ∧ w' `sublist_of` l.
Proof.
  rewrite sublist_app_r. split.
  - intros (w1 & w2 & -> & Hw1 & Hw2). apply sublist_cons_r in Hw2
      as [->%sublist_nil_r|(w2' & -> & ->%sublist_nil_r)].
    + left. by rewrite app_nil_r.
    + right. by exists w1.
  - intros [Hw|(w' & -> & Hw)].
    + exists w, []. rewrite app_nil_r. split; [done|].
      split; [done|apply sublist_nil_l].
    + by exists w', [x].
Qed.

(** A common subsequence of two sequences with a last symbol each leaves
    out one of the two last symbols, or ends with both, which are then
    the same. *)
Lemma common_snoc w (l1 l2 : list A) x y :
  w `sublist_of` l1 ++ [x] → w `sublist_of` l2 ++ [y] →
  (w `sublist_of` l1 ∧ w `sublist_of` l2 ++ [y]) ∨
  (w `sublist_of` l1 ++ [x] ∧ w `sublist_of` l2) ∨
  (x = y ∧ ∃ w', w = w' ++ [x] ∧ w' `sublist_of` l1 ∧ w' `sublist_of` l2).
Proof.
  intros Hw1 Hw2.
  destruct (proj1 (sublist_snoc_r _ _ _) Hw1) as [?|(w1 & -> & ?)]; [by left|].
  destruct (proj1 (sublist_snoc_r _ _ _) Hw2) as [?|(w2 & Heq & ?)];
    [by right; left|].
  apply app_inj_tail in Heq as [-> ->]. right; right. split; [done|].
  by exists w2.
Qed.

Lemma is_lcs_length_snoc (l1 l2 : list A) x y (na nb nd : nat) :
  is_lcs_length (l1 ++ [x]) l2 na →
  is_lcs_length l1 (l2 ++ [y]) nb →
  is_lcs_length l1 l2 nd →
  is_lcs_length (l1 ++ [x]) (l2 ++ [y])
    ((na `max` nb) `max` (if decide (x = y) then nd + 1 else nd))%nat.
Proof.
  intros [(wa & Ha1 & Ha2 & Hla) Hmaxa] [(wb & Hb1 & Hb2 & Hlb) Hmaxb]
    [(wd & Hd1 & Hd2 & Hld) Hmaxd].
  set (nm := if decide (x = y) then (nd + 1)%nat else nd).
  assert (Hm : ∃ w, w `sublist_of` l1 ++ [x] ∧ w `sublist_of` l2 ++ [y] ∧
                    length w = nm).
  { unfold nm. case_decide as Hxy.
    - subst y. exists (wd ++ [x]).
      split; [by apply sublist_app|]. split; [by apply sublist_app|].
      rewrite length_app. simpl. lia.
    - exists wd. split; [by apply sublist_inserts_r|].
      split; [by apply sublist_inserts_r|done]. }
  split.
  - destruct Hm as (wm & Hm1 & Hm2 & Hlm).
    destruct (decide (na `max` nb ≤ nm)%nat);
      [exists wm; split; [done|]; split; [done|lia]|].
    destruct (decide (nb ≤ na)%nat).
    + exists wa. split; [done|]. split; [by apply sublist_inserts_r|lia].
    + exists wb. split; [by apply sublist_inserts_r|]. split; [done|lia].
  - intros w Hw1 Hw2.
    destruct (common_snoc w l1 l2 x y Hw1 Hw2)
      as [[H1 H2]|[[H1 H2]|(-> & w' & -> & H1 & H2)]].
    + specialize (Hmaxb w H1 H2). lia.
    + specialize (Hmaxa w H1 H2). lia.
    + specialize (Hmaxd w' H1 H2). unfold nm. rewrite decide_True by done.
      rewrite length_app. simpl. lia.
Qed.

(** With both penalties zero, the entry of the specification's table at
    [i], [j] is the length of a longest common subsequence of the first
    [i] symbols of [s1] and the first [j] symbols of [s2]. *)
Lemma spec_Table_lcs (s1 s2 : list A) (i j : nat) :
  (i ≤ length s1)%nat → (j ≤ length s2)%nat →
  ∃ n : nat, spec_Table s1 s2 0 0 i j = Z.of_nat n ∧
    is_lcs_length (take i s1) (take j s2) n.
Proof.
  revert j. induction i as [|i IHi]; intros j Hi Hj.
  { exists 0%nat. rewrite spec_Table_row0. split; [lia|].
    apply is_lcs_length_nil_l. }
  induction j as [|j IHj].
  { exists 0%nat. rewrite spec_Table_col0. split; [lia|].
    apply is_lcs_length_nil_r. }
  destruct (IHi j) as (nd & Hnd & Hd); [lia..|].
  destruct (IHi (S j)) as (nb & Hnb & Hb); [lia..|].
  destruct IHj as (na & Hna & Ha); [lia|].
  destruct (lookup_lt_is_Some_2 s1 i) as [x Hx]; [lia|].
  destruct (lookup_lt_is_Some_2 s2 j) as [y Hy]; [lia|].
  rewrite (take_S_r _ _ _ Hx) in Ha |- *.
  rewrite (take_S_r _ _ _ Hy) in Hb |- *.
  eexists. split; [|by apply is_lcs_length_snoc].
  rewrite spec_Table_inner, Hna, Hnb, Hnd, Hx, Hy. unfold max3.
  destruct (decide (Some x = Some y)) as [[= ->]|Hne].
  - rewrite decide_True by done. lia.
  - rewrite decide_False by congruence. lia.
Qed.

(** C1: with mismatch penalty [0] and gap penalty [0] the pairwise
    routine returns, on every pair of sequences, the length of their
    longest common subsequence as the reference enumeration gives it. *)
Theorem needleman_wunsch_zero_penalties_lcs (s1 s2 : list A) :
  needleman_wunsch_algorithm s1 s2 0 0 = Ok (Z.of_nat (lcs_length s1 s2)).
Proof.
  rewrite needleman_wunsch_result.
  destruct (spec_Table_lcs s1 s2 (length s1) (length s2)) as (n & -> & Hn);
    [done..|].
  rewrite !take_ge in Hn by done. do 2 f_equal.
  eapply is_lcs_length_unique; [exact Hn|apply lcs_length_spec].
Qed.

End LongestCommon.

(** C6: the worked examples: the pairwise routine gives [2] on ["ACTG"]
    and ["AG"] with zero penalties, and the three-way routine gives [4] on
    three copies of ["AAAA"]. *)
Theorem worked_examples :
  needleman_wunsch_algorithm
    (String.list_ascii_of_string "ACTG") (String.list_ascii_of_string "AG") 0 0 = Ok 2 ∧
  longest_common_subsequence
    (String.list_ascii_of_string "AAAA") (String.list_ascii_of_string "AAAA")
    (String.list_ascii_of_string "AAAA") = Ok 4.
Proof. split; vm_compute; reflexivity. Qed.

(** ** Majority elements *)

Section MajorityFacts.

Implicit Types (a rest : list Z) (x y element candidate : Z).

Lemma count_nonneg x a : 0 ≤ count x a.
Proof. induction a as [|z a IH]; simpl; [done|]. case_decide; lia. Qed.

Lemma count_app x a b : count x (a ++ b) = count x a + count x b.
Proof. induction a as [|z a IH]; simpl; [done|]. rewrite IH. lia. Qed.

Lemma count_two x y a : x ≠ y → count x a + count y a ≤ len a.
Proof.
  intros Hxy. unfold len. induction a as [|z a IH]; simpl length; simpl count;
    [done|].
  repeat case_decide; subst; try done; lia.
Qed.

Lemma count_pos_elem_of x a : 0 < count x a → x ∈ a.
Proof.
  induction a as [|z a IH]; simpl; [lia|]. case_decide as Hz.
  - subst z. intros _. by left.
  - intros Hpos. right. apply IH. lia.
Qed.

Lemma majority_twice x a : count x a > len a / 2 ↔ 2 * count x a > len a.
Proof. unfold len. split; intros Hm; Z.div_mod_to_equations; lia. Qed.

Lemma is_majority_element_true x a :
  is_majority_element x a = true ↔ 2 * count x a > len a.
Proof.
  unfold is_majority_element. by rewrite bool_decide_eq_true, majority_twice.
Qed.

Lemma is_majority_element_false x a :
  is_majority_element x a = false ↔ count x a ≤ len a / 2.
Proof. unfold is_majority_element. rewrite bool_decide_eq_false. lia. Qed.

(** A list has at most one majority element. *)
Lemma majority_unique x y a :
  is_majority_element x a = true → is_majority_element y a = true → x = y.
Proof.
  rewrite !is_majority_element_true. intros Hx Hy.
  destruct (decide (x = y)) as [|Hxy]; [done|].
  pose proof (count_two x y a Hxy). lia.
Qed.

Lemma majority_elem_of x a : is_majority_element x a = true → x ∈ a.
Proof.
  rewrite is_majority_element_true. intros Hx. apply count_pos_elem_of.
  unfold len in Hx. lia.
Qed.

(** The loop of [naive_algorithm] either finds no majority element among
    the elements it visits and yields [-1], or yields a majority
    element. *)
Lemma naive_loop_cases a rest :
  ((∀ x, x ∈ rest → is_majority_element x a = false) ∧
   naive_loop a rest = -1) ∨
  is_majority_element (naive_loop a rest) a = true.
Proof.
  induction rest as [|element rest IH]; simpl.
  - left. split; [|done]. by intros x ?%elem_of_nil.
  - destruct (is_majority_element element a) eqn:Helement; [by right|].
    destruct IH as [[Hrest Hloop]|Hfound]; [left|by right].
    split; [|done]. intros x [->|Hx]%elem_of_cons; auto.
Qed.

Lemma naive_algorithm_majority x a :
  is_majority_element x a = true → naive_algorithm a = x.
Proof.
  intros Hx. unfold naive_algorithm.
  destruct (naive_loop_cases a a) as [[Hnone _]|Hfound].
  - rewrite Hnone in Hx; [done|]. by apply majority_elem_of.
  - by eapply majority_unique.
Qed.

Lemma naive_algorithm_no_majority a :
  (∀ x, is_majority_element x a = false) → naive_algorithm a = -1.
Proof.
  intros Hnone. unfold naive_algorithm.
  destruct (naive_loop_cases a a) as [[_ Hloop]|Hfound]; [done|].
  by rewrite Hnone in Hfound.
Qed.

(** Each element equal to [x] raises the lead of [x] by one, and each
    other element lowers it by one at most; the count stays positive. *)
Lemma candidate_step_lead x element candidate (votes : Z) :
  1 ≤ votes →
  ∃ candidate' votes',
    candidate_step element (candidate, votes) = Ok (candidate', votes') ∧
    1 ≤ votes' ∧
    lead x (candidate, votes) + (if decide (element = x) then 1 else -1)
      ≤ lead x (candidate', votes').
Proof.
  intros Hvotes. unfold candidate_step, lead.
  destruct (decide (candidate = element)) as [->|Hce].
  - rewrite decide_False by lia. exists element, (votes + 1).
    split; [done|]. split; [lia|]. case_decide; lia.
  - destruct (decide (votes - 1 = 0)) as [Hz|Hnz].
    + exists element, 1. split; [done|]. split; [done|].
      repeat case_decide; subst; try done; lia.
    + exists candidate, (votes - 1). split; [done|]. split; [lia|].
      repeat case_decide; subst; try done; lia.
Qed.

Lemma candidate_loop_lead x a candidate (votes : Z) :
  1 ≤ votes →
  ∃ candidate' votes',
    for_ a candidate_step (candidate, votes) = Ok (candidate', votes') ∧
    1 ≤ votes' ∧
    lead x (candidate, votes) + 2 * count x a - len a
      ≤ lead x (candidate', votes').
Proof.
  revert candidate votes. unfold len.
  induction a as [|element a IH]; intros candidate votes Hvotes.
  - exists candidate, votes. split; [done|]. split; [done|]. simpl. lia.
  - destruct (candidate_step_lead x element candidate votes Hvotes)
      as (c1 & v1 & Hstep & Hv1 & Hlead1).
    destruct (IH c1 v1 Hv1) as (c2 & v2 & Hloop & Hv2 & Hlead2).
    exists c2, v2. cbn [for_]. rewrite Hstep. simpl. split; [done|].
    split; [done|]. simpl count. simpl length. unfold lead in *.
    destruct (decide (element = x)); lia.
Qed.

(** On a list that is not empty the first pass of the Boyer-Moore vote
    yields a candidate, and it is the majority element when there is
    one. *)
Lemma candidate_majority_element_spec a :
  a ≠ [] →
  ∃ candidate, _candidate_majority_element a = Ok candidate ∧
    ∀ x, is_majority_element x a = true → candidate = x.
Proof.
  intros Ha. destruct a as [|first a'] eqn:Heq; [done|]. rewrite <-Heq.
  unfold _candidate_majority_element.
  assert (Hfirst : getitem a 0 = Ok first)
    by (by apply (getitem_Some a 0%nat); rewrite Heq).
  rewrite Hfirst. simpl mbind.
  assert (Hloop : ∀ x, ∃ candidate' votes',
    for_ a candidate_step (first, 1) = Ok (candidate', votes') ∧
    1 ≤ votes' ∧
    lead x (first, 1) + 2 * count x a - len a ≤ lead x (candidate', votes')).
  { intros x. by apply candidate_loop_lead. }
  destruct (Hloop first) as (c & v & Hrun & _ & _).
  exists c. rewrite Hrun. split; [done|].
  intros x Hx%is_majority_element_true.
  destruct (Hloop x) as (c' & v' & Hrun' & Hv' & Hlead).
  rewrite Hrun in Hrun'. injection Hrun' as <- <-.
  unfold lead in Hlead. destruct (decide (c = x)) as [|Hcx]; [done|].
  destruct (decide (first = x)); lia.
Qed.

Lemma boyer_moore_algorithm_cases a :
  ((∀ x, is_majority_element x a = false) ∧
   boyer_moore_algorithm a = Ok (-1)) ∨
  (∃ x, is_majority_element x a = true ∧ boyer_moore_algorithm a = Ok x).
Proof.
  unfold boyer_moore_algorithm. destruct a as [|first a'].
  - left. split; [|done]. intros x. by apply is_majority_element_false.
  - remember (first :: a') as a eqn:Heq.
    rewrite decide_False by (rewrite Heq; unfold len; simpl; lia).
    destruct (candidate_majority_element_spec a) as (c & -> & Hc);
      [by rewrite Heq|].
    simpl. destruct (is_majority_element c a) eqn:Hmaj.
    + right. by exists c.
    + left. split; [|done]. intros x.
      destruct (is_majority_element x a) eqn:Hx; [|done].
      rewrite (Hc x Hx) in Hmaj. congruence.
Qed.

(** C7: on a list in which no element occurs more than [len(a) // 2]
    times both [naive_algorithm] and [boyer_moore_algorithm] return the
    sentinel [-1]; neither returns [-1] on any other list, except that on
    a list whose majority element is [-1] both return [-1] as well. *)
Theorem majority_sentinel a :
  ((∀ x, count x a ≤ len a / 2) →
     naive_algorithm a = -1 ∧ boyer_moore_algorithm a = Ok (-1)) ∧
  (naive_algorithm a = -1 ∨ boyer_moore_algorithm a = Ok (-1) →
     (∀ x, count x a ≤ len a / 2) ∨ count (-1) a > len a / 2) ∧
  (count (-1) a > len a / 2 →
     naive_algorithm a = -1 ∧ boyer_moore_algorithm a = Ok (-1)).
Proof.
  destruct (boyer_moore_algorithm_cases a) as [[Hnone Hbm]|(m & Hm & Hbm)].
  - pose proof (naive_algorithm_no_majority a Hnone) as Hnaive.
    split; [done|]. split.
    + intros _. left. intros x. by apply is_majority_element_false.
    + done.
  - pose proof (naive_algorithm_majority m a Hm) as Hnaive.
    rewrite Hbm, Hnaive. split; [|split].
    + intros Hnone. specialize (Hnone m).
      apply is_majority_element_false in Hnone. congruence.
    + intros Hsentinel. right.
      assert (m = -1) as -> by (destruct Hsentinel; congruence).
      unfold is_majority_element in Hm. by apply bool_decide_eq_true in Hm.
    + intros Hminus. assert (m = -1) as ->; [|done].
      apply (majority_unique _ _ a); [done|].
      unfold is_majority_element. by apply bool_decide_eq_true.
Qed.

Lemma majority_sentinel_witness :
  (naive_algorithm [1; 2] = -1 ∧ boyer_moore_algorithm [1; 2] = Ok (-1)) ∧
  (naive_algorithm [-1; 7; -1] = -1 ∧
   boyer_moore_algorithm [-1; 7; -1] = Ok (-1)).
Proof.
  split.
  - apply (proj1 (majority_sentinel [1; 2])). intros x. simpl.
    repeat case_decide; vm_compute; congruence.
  - apply (proj2 (proj2 (majority_sentinel [-1; 7; -1]))). reflexivity.
Defined.

(** C10: [boyer_moore_algorithm] returns [-1] on the empty list, where
    the subscript [a[0]] of [_candidate_majority_element] would raise; it
    returns on every list; and on a list that is not empty and has a
    majority element it returns that element. *)
Theorem boyer_moore_total_and_correct :
  boyer_moore_algorithm [] = Ok (-1) ∧
  _candidate_majority_element [] = Raise IndexError ∧
  (∀ a, ∃ result : Z, boyer_moore_algorithm a = Ok result) ∧
  (∀ a x, a ≠ [] → count x a > len a / 2 → boyer_moore_algorithm a = Ok x).
Proof.
  split; [done|]. split; [done|]. split.
  - intros a.
    destruct (boyer_moore_algorithm_cases a) as [[_ Hbm]|(m & _ & Hbm)]; eauto.
  - intros a x _ Hx.
    assert (Hmaj : is_majority_element x a = true)
      by (by apply bool_decide_eq_true).
    destruct (boyer_moore_algorithm_cases a) as [[Hnone _]|(m & Hm & ->)].
    + by rewrite Hnone in Hmaj.
    + f_equal. by eapply majority_unique.
Qed.

Lemma boyer_moore_total_and_correct_witness :
  boyer_moore_algorithm [2; 1; 2] = Ok 2.
Proof.
  apply boyer_moore_total_and_correct; [done|reflexivity].
Defined.

(** C9: [divide_and_conquer_algorithm] calls [_get_majority_element], a
    name the notebook never binds: on every list the call raises
    [NameError], whatever the recursion depth allowed and whatever the
    other globals do, and no result is returned to compare with
    [naive_algorithm]. *)
Theorem divide_and_conquer_algorithm_name_error
    (other_call : string → list Z → Z → Z → result Z) (depth : nat) a :
  divide_and_conquer_algorithm other_call depth a =
    Raise (NameError "_get_majority_element").
Proof.
  unfold divide_and_conquer_algorithm.
  assert (Hunbound : notebook_globals !! "_get_majority_element" = None)
    by (vm_compute; reflexivity).
  destruct depth; cbn [call_global]; by rewrite Hunbound.
Qed.

(** *** The divide-and-conquer helper under the name its body calls *)

Lemma naive_algorithm_cases a :
  ((∀ x, is_majority_element x a = false) ∧ naive_algorithm a = -1) ∨
  is_majority_element (naive_algorithm a) a = true.
Proof.
  destruct (naive_loop_cases a a) as [[Hnone Hloop]|Hfound]; [left|by right].
  split; [|done]. intros x.
  destruct (is_majority_element x a) eqn:Hx; [|done].
  rewrite <-(Hnone x); [done|]. by apply majority_elem_of.
Qed.

Lemma naive_algorithm_singleton x : naive_algorithm [x] = x.
Proof.
  apply naive_algorithm_majority, is_majority_element_true.
  simpl. rewrite decide_True by done. unfold len. simpl. lia.
Qed.

(** A majority element of a list is a majority element of one of any two
    parts the list is cut into. *)
Lemma majority_app x a b :
  is_majority_element x (a ++ b) = true →
  is_majority_element x a = true ∨ is_majority_element x b = true.
Proof.
  rewrite !is_majority_element_true, count_app. unfold len.
  rewrite length_app. lia.
Qed.

Lemma slice_nat a (l r : nat) :
  (l ≤ r ≤ length a)%nat →
  slice a (Z.of_nat l) (Z.of_nat r) = take (r - l) (drop l a).
Proof.
  intros Hlr. unfold slice, slice_bound, len.
  rewrite !decide_False by lia. f_equal; [|f_equal]; lia.
Qed.

Lemma slice_split a (l m r : nat) :
  (l ≤ m ≤ r)%nat →
  take (r - l) (drop l a) = take (m - l) (drop l a) ++ take (r - m) (drop m a).
Proof.
  intros Hlmr. replace (r - l)%nat with ((m - l) + (r - m))%nat by lia.
  rewrite <-take_take_drop, drop_drop. do 3 f_equal. lia.
Qed.

(** Merging the results of the two halves as [_divide_and_conquer] does
    gives the result of [naive_algorithm] on the whole. *)
Lemma merge_halves (b1 b2 : list Z) :
  let b := b1 ++ b2 in
  let left_element := naive_algorithm b1 in
  let right_element := naive_algorithm b2 in
  (if decide (left_element = -1 ∧ right_element ≠ -1) then
     if is_majority_element right_element b then right_element else -1
   else if decide (left_element ≠ -1 ∧ right_element = -1) then
     if is_majority_element left_element b then left_element else -1
   else if decide (left_element ≠ -1 ∧ right_element ≠ -1) then
     if is_majority_element left_element b then left_element
     else if is_majority_element right_element b then right_element
     else -1
   else -1) = naive_algorithm b.
Proof.
  intros b left_element right_element.
  assert (Hhalf : ∀ x, is_majority_element x b = true →
                       left_element = x ∨ right_element = x).
  { intros x [Hx|Hx]%majority_app; [left|right];
      by apply naive_algorithm_majority. }
  assert (Hfound : ∀ x, is_majority_element x b = true → naive_algorithm b = x)
    by (intros x; apply naive_algorithm_majority).
  assert (Hsentinel : is_majority_element left_element b = false →
                      is_majority_element right_element b = false →
                      left_element = -1 ∨ right_element = -1 →
                      naive_algorithm b = -1).
  { intros Hl Hr Hone.
    destruct (naive_algorithm_cases b) as [[_ ?]|Hmaj]; [done|].
    destruct (Hhalf _ Hmaj) as [Heq|Heq]; destruct Hone; congruence. }
  destruct (is_majority_element left_element b) eqn:Hl,
    (is_majority_element right_element b) eqn:Hr;
    repeat case_decide; symmetry;
    try (by apply Hfound); try (by apply Hsentinel; auto);
    try (by rewrite (Hfound _ Hl); lia); try (by rewrite (Hfound _ Hr); lia).
  all: destruct (naive_algorithm_cases b) as [[_ ?]|Hmaj]; [done|].
  all: destruct (Hhalf _ Hmaj) as [Heq|Heq]; try lia; congruence.
Qed.

(** With [_get_majority_element] bound to [_divide_and_conquer], the call
    on the part of [a] from [l] to [r] returns what [naive_algorithm]
    returns on that part, within a recursion depth of [r - l + 1]. *)
Lemma call_renamed_naive other_call a (depth l r : nat) :
  (l ≤ r ≤ length a)%nat → (r - l ≤ depth)%nat →
  call_global other_call renamed_globals (S depth) "_get_majority_element"
    a (Z.of_nat l) (Z.of_nat r) =
  Ok (naive_algorithm (take (r - l) (drop l a))).
Proof.
  revert l r. induction depth as [depth IH] using lt_wf_ind.
  intros l r Hlr Hdepth. cbn [call_global]. unfold renamed_globals at 1.
  rewrite lookup_insert_eq. unfold _divide_and_conquer.
  destruct (decide (Z.of_nat l = Z.of_nat r)) as [Heq|Hne].
  { replace (r - l)%nat with 0%nat by lia. done. }
  destruct (decide (Z.of_nat l + 1 = Z.of_nat r)) as [Hone|Hmore].
  { destruct (lookup_lt_is_Some_2 a l) as [x Hx]; [lia|].
    replace (r - l)%nat with 1%nat by lia.
    rewrite (getitem_Some _ _ _ Hx), (drop_S _ _ _ Hx). simpl. rewrite take_0.
    by rewrite naive_algorithm_singleton. }
  assert (Hmid : ∃ m : nat,
    Z.of_nat l + (Z.of_nat r - Z.of_nat l) / 2 = Z.of_nat m ∧ (l < m < r)%nat).
  { exists (Z.to_nat (Z.of_nat l + (Z.of_nat r - Z.of_nat l) / 2)).
    split; Z.div_mod_to_equations; lia. }
  destruct Hmid as (m & -> & Hm).
  destruct depth as [|depth]; [lia|].
  rewrite !(IH depth) by lia. cbn [mbind result_bind].
  rewrite slice_nat by lia. rewrite (slice_split a l m r) by lia.
  set (b1 := take (m - l) (drop l a)). set (b2 := take (r - m) (drop m a)).
  rewrite <-(merge_halves b1 b2). unfold is_majority_element.
  repeat case_decide; try done; repeat case_bool_decide; done.
Qed.

Lemma divide_and_conquer_renamed other_call a (depth : nat) :
  (length a < depth)%nat →
  call_global other_call renamed_globals depth
    "_get_majority_element" a 0 (len a) =
    Ok (naive_algorithm a).
Proof.
  intros Hdepth. destruct depth as [|depth]; [lia|].
  pose proof (call_renamed_naive other_call a depth 0 (length a)) as Hcall.
  rewrite drop_0, Nat.sub_0_r, take_ge in Hcall by done.
  apply Hcall; lia.
Qed.

End MajorityFacts.

(** ** Further properties of the majority notebook *)

Section MajorityMore.

Implicit Types (a b rest : list Z) (x y element candidate : Z).

Lemma boyer_moore_algorithm_naive a :
  boyer_moore_algorithm a = Ok (naive_algorithm a).
Proof.
  destruct (boyer_moore_algorithm_cases a) as [[Hnone ->]|(m & Hm & ->)].
  - by rewrite naive_algorithm_no_majority.
  - by rewrite (naive_algorithm_majority m).
Qed.

Lemma count_Permutation x a b : a ≡ₚ b → count x a = count x b.
Proof.
  induction 1 as [|z a b _ IH|z1 z2 a|a b c _ IH1 _ IH2]; simpl;
    [done|by rewrite IH|lia|congruence].
Qed.

Lemma is_majority_element_Permutation x a b :
  a ≡ₚ b → is_majority_element x a = is_majority_element x b.
Proof.
  intros Hab. unfold is_majority_element, len.
  by rewrite (count_Permutation x a b Hab), (Permutation_length Hab).
Qed.

Lemma naive_algorithm_Permutation a b :
  a ≡ₚ b → naive_algorithm a = naive_algorithm b.
Proof.
  intros Hab. destruct (naive_algorithm_cases a) as [[Hnone ->]|Hmaj].
  - symmetry. apply naive_algorithm_no_majority. intros x.
    by rewrite <-(is_majority_element_Permutation x a b Hab).
  - symmetry. apply naive_algorithm_majority.
    by rewrite <-(is_majority_element_Permutation _ a b Hab).
Qed.

Lemma candidate_step_cases element candidate (votes : Z) candidate' votes' :
  candidate_step element (candidate, votes) = Ok (candidate', votes') →
  candidate' = candidate ∨ candidate' = element.
Proof.
  unfold candidate_step. case_decide; intros [= ? ?]; subst; auto.
Qed.

(** The candidate after the loop is the one before it or an element the
    loop has visited. *)
Lemma candidate_loop_elem_of rest candidate (votes : Z) candidate' votes' :
  for_ rest candidate_step (candidate, votes) = Ok (candidate', votes') →
  candidate' = candidate ∨ candidate' ∈ rest.
Proof.
  revert candidate votes. induction rest as [|element rest IH];
    intros candidate votes; cbn [for_].
  - intros [= -> _]. by left.
  - destruct (candidate_step element (candidate, votes))
      as [[c1 v1]|e] eqn:Hstep; cbn [mbind result_bind]; [|done].
    intros [->|Hin]%IH; [|right; by right].
    apply candidate_step_cases in Hstep as [-> | ->]; [by left|].
    right. by left.
Qed.

(** X1: on every list, [boyer_moore_algorithm] returns what
    [naive_algorithm] returns: the comparison the notebook's test of the
    Boyer-Moore routine is written to make holds everywhere. *)
Theorem boyer_moore_agrees_with_naive a :
  boyer_moore_algorithm a = Ok (naive_algorithm a).
Proof. apply boyer_moore_algorithm_naive. Qed.

(** X2: an element [is_majority_element] accepts occurs in the list, no
    two different elements are accepted for one list, and none is
    accepted for the empty list. *)
Theorem majority_element_member_unique a x y :
  is_majority_element x [] = false ∧
  (is_majority_element x a = true → x ∈ a) ∧
  (is_majority_element x a = true → is_majority_element y a = true → x = y).
Proof.
  split; [done|]. split; [apply majority_elem_of|apply majority_unique].
Qed.

Lemma majority_element_member_unique_witness :
  2 ∈ [2; 1; 2] ∧ 2 = 2.
Proof.
  destruct (majority_element_member_unique [2; 1; 2] 2 2) as (_ & Hin & Huniq).
  split; [by apply Hin|by apply Huniq].
Defined.

(** X3: [naive_algorithm] returns the majority element of a list that
    has one; whatever it returns is [-1] or an element of the list that
    is its majority element. *)
Theorem naive_algorithm_correct a :
  (∀ x, is_majority_element x a = true → naive_algorithm a = x) ∧
  (naive_algorithm a = -1 ∨
   (naive_algorithm a ∈ a ∧
    is_majority_element (naive_algorithm a) a = true)).
Proof.
  split; [intros x; apply naive_algorithm_majority|].
  destruct (naive_algorithm_cases a) as [[_ ?]|Hmaj]; [by left|right].
  split; [by apply majority_elem_of|done].
Qed.

Lemma naive_algorithm_correct_witness : naive_algorithm [3; 5; 5] = 5.
Proof. by apply (proj1 (naive_algorithm_correct [3; 5; 5])). Defined.

(** X4: [_candidate_majority_element] raises [IndexError] on the empty
    list and on no other; on a list that is not empty it returns an
    element of the list. *)
Theorem candidate_majority_element_member a :
  (_candidate_majority_element a = Raise IndexError ↔ a = []) ∧
  (a ≠ [] → ∃ candidate,
     _candidate_majority_element a = Ok candidate ∧ candidate ∈ a).
Proof.
  assert (Hmember : a ≠ [] → ∃ candidate,
    _candidate_majority_element a = Ok candidate ∧ candidate ∈ a).
  { intros Ha. destruct a as [|first a'] eqn:Heq; [done|]. rewrite <-Heq.
    unfold _candidate_majority_element.
    assert (Hfirst : getitem a 0 = Ok first)
      by (by apply (getitem_Some a 0%nat); rewrite Heq).
    rewrite Hfirst. cbn [mbind result_bind].
    destruct (candidate_loop_lead first a first 1) as (c & v & Hrun & _);
      [done|].
    rewrite Hrun. exists c. split; [done|].
    apply candidate_loop_elem_of in Hrun as [->|Hin]; [|done].
    rewrite Heq. by left. }
  split; [|done]. split.
  - intros Hraise. destruct a as [|first a']; [done|].
    destruct Hmember as (c & Hc & _); [done|]. congruence.
  - by intros ->.
Qed.

Lemma candidate_majority_element_member_witness :
  ∃ candidate,
    _candidate_majority_element [4; 7] = Ok candidate ∧ candidate ∈ [4; 7].
Proof. by apply (proj2 (candidate_majority_element_member [4; 7])). Defined.

(** X5: the results of [naive_algorithm] and of [boyer_moore_algorithm]
    do not depend on the order of the list. *)
Theorem majority_order_independent a b :
  a ≡ₚ b →
  naive_algorithm a = naive_algorithm b ∧
  boyer_moore_algorithm a = boyer_moore_algorithm b.
Proof.
  intros Hab. rewrite !boyer_moore_algorithm_naive.
  by rewrite (naive_algorithm_Permutation a b Hab).
Qed.

Lemma majority_order_independent_witness :
  naive_algorithm [1; 2; 2] = naive_algorithm [2; 1; 2] ∧
  boyer_moore_algorithm [1; 2; 2] = boyer_moore_algorithm [2; 1; 2].
Proof. apply majority_order_independent. apply perm_swap. Defined.

Lemma notebook_globals_unbound other_call (depth : nat) a (left right : Z) :
  call_global other_call notebook_globals depth
    "_get_majority_element" a left right =
  Raise (NameError "_get_majority_element").
Proof.
  assert (Hunbound : notebook_globals !! "_get_majority_element" = None)
    by (vm_compute; reflexivity).
  destruct depth; cbn [call_global]; by rewrite Hunbound.
Qed.

(** X6: called by its own name, [_divide_and_conquer] answers only on
    ranges of at most one element: [-1] on an empty range, [a[left]]
    (or its [IndexError]) on a range of one element; on every other
    range its first recursive call raises [NameError]. *)
Theorem divide_and_conquer_short_ranges
    (other_call : string → list Z → Z → Z → result Z) (depth : nat)
    a (left : Z) :
  let helper := call_global other_call notebook_globals (S depth)
                  "_divide_and_conquer" a in
  helper left left = Ok (-1) ∧
  helper left (left + 1) = getitem a left ∧
  (∀ right, right ≠ left → right ≠ left + 1 →
     helper left right = Raise (NameError "_get_majority_element")).
Proof.
  assert (Hbound : notebook_globals !! "_divide_and_conquer" =
                   Some Def_divide_and_conquer) by (vm_compute; reflexivity).
  cbn zeta. cbn [call_global]. rewrite Hbound. unfold _divide_and_conquer.
  split; [by rewrite decide_True|]. split.
  - rewrite decide_False by lia. by rewrite decide_True.
  - intros right Hne Hne'.
    destruct (decide (left = right)) as [|_]; [lia|].
    destruct (decide (left + 1 = right)) as [|_]; [lia|].
    rewrite !notebook_globals_unbound. reflexivity.
Qed.

Lemma divide_and_conquer_short_ranges_witness :
  call_global (λ _ _ _ _, Ok 0) notebook_globals 1
    "_divide_and_conquer" [5; 5; 7] 0 3 =
  Raise (NameError "_get_majority_element").
Proof.
  by apply (divide_and_conquer_short_ranges (λ _ _ _ _, Ok 0) 0 [5; 5; 7] 0).
Defined.

(** X7: the merge step of [_divide_and_conquer] is right: on a range of
    two elements or more within the list, if the two calls it makes
    return what [naive_algorithm] returns on the two halves, it returns
    what [naive_algorithm] returns on the whole range. *)
Theorem divide_and_conquer_merge
    (call : string → list Z → Z → Z → result Z) a (left right : Z) :
  0 ≤ left → left + 1 < right → right ≤ len a →
  call "_get_majority_element" a left (left + (right - left) / 2) =
    Ok (naive_algorithm (slice a left (left + (right - left) / 2))) →
  call "_get_majority_element" a (left + (right - left) / 2) right =
    Ok (naive_algorithm (slice a (left + (right - left) / 2) right)) →
  _divide_and_conquer call a left right =
    Ok (naive_algorithm (slice a left right)).
Proof.
  intros Hleft Hlr Hright. unfold len in Hright.
  assert (Hmid : ∃ l m r : nat,
    left = Z.of_nat l ∧ right = Z.of_nat r ∧
    left + (right - left) / 2 = Z.of_nat m ∧
    (l < m)%nat ∧ (m < r)%nat ∧ (r ≤ length a)%nat).
  { exists (Z.to_nat left), (Z.to_nat (left + (right - left) / 2)),
      (Z.to_nat right).
    repeat split; Z.div_mod_to_equations; lia. }
  destruct Hmid as (l & m & r & -> & -> & Hm & Hlm & Hmr & Hra).
  rewrite Hm.
  intros Hcall_left Hcall_right. unfold _divide_and_conquer.
  destruct (decide (Z.of_nat l = Z.of_nat r)) as [|_]; [lia|].
  destruct (decide (Z.of_nat l + 1 = Z.of_nat r)) as [|_]; [lia|].
  rewrite Hm, Hcall_left, Hcall_right. cbn [mbind result_bind].
  rewrite !slice_nat by lia. rewrite (slice_split a l m r) by lia.
  set (b1 := take (m - l) (drop l a)). set (b2 := take (r - m) (drop m a)).
  rewrite <-(merge_halves b1 b2). unfold is_majority_element.
  repeat case_decide; try done; repeat case_bool_decide; done.
Qed.

Lemma divide_and_conquer_merge_witness :
  _divide_and_conquer (λ _ a left right, Ok (naive_algorithm (slice a left right)))
    [1; 1; 2] 0 3 = Ok (naive_algorithm (slice [1; 1; 2] 0 3)).
Proof.
  apply divide_and_conquer_merge; [lia|lia|by vm_compute|reflexivity..].
Defined.

(** X8: the body of [test_divide_and_conquer_algorithm] never reaches
    its [assert]: on every list the call of
    [divide_and_conquer_algorithm] raises [NameError] out of the test. *)
Theorem test_divide_and_conquer_algorithm_errors
    (other_call : string → list Z → Z → Z → result Z) (depth : nat) a :
  test_divide_and_conquer_algorithm other_call depth a =
    Errored (NameError "_get_majority_element").
Proof.
  unfold test_divide_and_conquer_algorithm, divide_and_conquer_algorithm.
  by rewrite notebook_globals_unbound.
Qed.

(** X9: the body of [test_boyer_moore_algorithm] stops at its first
    statement: it calls [naive_get_majority_element], a name the
    notebook never binds, so on every list it raises [NameError] and
    [boyer_moore_algorithm] is never compared with anything. *)
Theorem test_boyer_moore_algorithm_errors
    (other_call1 : string → list Z → result Z) a :
  test_boyer_moore_algorithm other_call1 a =
    Errored (NameError "naive_get_majority_element").
Proof.
  unfold test_boyer_moore_algorithm, call_global1.
  assert (Hunbound : notebook_globals !! "naive_get_majority_element" = None)
    by (vm_compute; reflexivity).
  by rewrite Hunbound.
Qed.

End MajorityMore.

(** ** Further properties of the pairwise alignment *)

(** A property of the entries that holds on the first row and the first
    column, and at an entry as soon as it holds at its three
    neighbours, holds everywhere. *)
Lemma table_ind (P : nat → nat → Prop) :
  (∀ j, P 0%nat j) → (∀ i, P i 0%nat) →
  (∀ i j, P (S i) j → P i (S j) → P i j → P (S i) (S j)) →
  ∀ i j, P i j.
Proof.
  intros Hrow Hcol Hstep i. induction i as [|i IHi]; [done|].
  intros j. induction j as [|j IHj]; auto.
Qed.

Section PairwiseMore.

Context {A : Type} `{EqDecision A}.

Lemma spec_Table_swap (s1 s2 : list A) mu sigma (i j : nat) :
  spec_Table s1 s2 mu sigma i j = spec_Table s2 s1 mu sigma j i.
Proof.
  revert i j. apply table_ind.
  - intros j. by rewrite spec_Table_row0, spec_Table_col0.
  - intros i. by rewrite spec_Table_row0, spec_Table_col0.
  - intros i j Hins Hdel Hdia. rewrite !spec_Table_inner, Hins, Hdel, Hdia.
    destruct (decide (s1 !! i = s2 !! j)), (decide (s2 !! j = s1 !! i));
      try congruence; unfold max3; lia.
Qed.

Lemma spec_Table_lower (s1 s2 : list A) mu sigma (i j : nat) :
  sigma * (Z.of_nat i + Z.of_nat j) ≤ spec_Table s1 s2 mu sigma i j.
Proof.
  revert i j. apply table_ind.
  - intros j. rewrite spec_Table_row0. lia.
  - intros i. rewrite spec_Table_col0. lia.
  - intros i j Hins Hdel Hdia. rewrite spec_Table_inner. unfold max3. lia.
Qed.

Lemma spec_Table_upper (s1 s2 : list A) mu sigma (i j : nat) :
  sigma ≤ 0 → mu ≤ 1 →
  spec_Table s1 s2 mu sigma i j ≤ Z.of_nat (i `min` j).
Proof.
  intros Hsigma Hmu. revert i j. apply table_ind.
  - intros j. rewrite spec_Table_row0. nia.
  - intros i. rewrite spec_Table_col0. nia.
  - intros i j Hins Hdel Hdia. rewrite spec_Table_inner. unfold max3.
    case_decide; lia.
Qed.

Lemma spec_Table_diagonal (s : list A) mu sigma (i : nat) :
  sigma ≤ 0 → mu ≤ 1 → spec_Table s s mu sigma i i = Z.of_nat i.
Proof.
  intros Hsigma Hmu. induction i as [|i IH].
  - rewrite spec_Table_row0. lia.
  - pose proof (spec_Table_upper s s mu sigma (S i) (S i) Hsigma Hmu) as Hup.
    rewrite spec_Table_inner in Hup |- *.
    rewrite decide_True in Hup |- * by done. rewrite IH in Hup |- *.
    unfold max3 in *. lia.
Qed.

Lemma spec_Table_mono (s1 s2 : list A) mu mu' sigma sigma' (i j : nat) :
  mu ≤ mu' → sigma ≤ sigma' →
  spec_Table s1 s2 mu sigma i j ≤ spec_Table s1 s2 mu' sigma' i j.
Proof.
  intros Hmu Hsigma. revert i j. apply table_ind.
  - intros j. rewrite !spec_Table_row0. nia.
  - intros i. rewrite !spec_Table_col0. nia.
  - intros i j Hins Hdel Hdia. rewrite !spec_Table_inner. unfold max3.
    case_decide; lia.
Qed.

(** X10: the pairwise routine gives the same score when its two
    sequences are exchanged, whatever the penalties. *)
Theorem needleman_wunsch_symmetric (s1 s2 : list A) (mu sigma : Z) :
  needleman_wunsch_algorithm s1 s2 mu sigma =
    needleman_wunsch_algorithm s2 s1 mu sigma.
Proof.
  rewrite !needleman_wunsch_result. f_equal. apply spec_Table_swap.
Qed.

(** X11: the score of the pairwise routine is never below the score of
    the alignment made of gaps only, [sigma * (len(s1) + len(s2))]. *)
Theorem needleman_wunsch_at_least_all_gaps (s1 s2 : list A) (mu sigma : Z) :
  ∃ score : Z,
    needleman_wunsch_algorithm s1 s2 mu sigma = Ok score ∧
    sigma * (len s1 + len s2) ≤ score.
Proof.
  rewrite needleman_wunsch_result. eexists. split; [done|].
  apply spec_Table_lower.
Qed.

(** X12: with a gap penalty of at most [0] and a mismatch penalty of at
    most [1], the score is at most the length of the shorter sequence,
    and a sequence aligned with itself scores its length. *)
Theorem needleman_wunsch_at_most_shorter (s1 s2 : list A) (mu sigma : Z) :
  sigma ≤ 0 → mu ≤ 1 →
  (∃ score : Z,
     needleman_wunsch_algorithm s1 s2 mu sigma = Ok score ∧
     score ≤ Z.min (len s1) (len s2)) ∧
  needleman_wunsch_algorithm s1 s1 mu sigma = Ok (len s1).
Proof.
  intros Hsigma Hmu. rewrite !needleman_wunsch_result. split.
  - eexists. split; [done|].
    pose proof (spec_Table_upper s1 s2 mu sigma (length s1) (length s2)
                  Hsigma Hmu).
    unfold len. lia.
  - by rewrite spec_Table_diagonal.
Qed.

(** X13: raising a penalty parameter never lowers the score: the score
    is monotone in the mismatch penalty and in the gap penalty. *)
Theorem needleman_wunsch_monotone (s1 s2 : list A) (mu mu' sigma sigma' : Z) :
  mu ≤ mu' → sigma ≤ sigma' →
  ∃ score score' : Z,
    needleman_wunsch_algorithm s1 s2 mu sigma = Ok score ∧
    needleman_wunsch_algorithm s1 s2 mu' sigma' = Ok score' ∧
    score ≤ score'.
Proof.
  intros Hmu Hsigma. rewrite !needleman_wunsch_result.
  eexists _, _. split; [done|]. split; [done|]. by apply spec_Table_mono.
Qed.

End PairwiseMore.

Lemma needleman_wunsch_at_most_shorter_witness :
  (∃ score : Z,
     needleman_wunsch_algorithm [1; 2; 3] [1; 3] (-1) (-2) = Ok score ∧
     score ≤ Z.min (len [1; 2; 3]) (len [1; 3])) ∧
  needleman_wunsch_algorithm [1; 2; 3] [1; 2; 3] (-1) (-2) = Ok (len [1; 2; 3]).
Proof. apply needleman_wunsch_at_most_shorter; lia. Defined.

Lemma needleman_wunsch_monotone_witness :
  ∃ score score' : Z,
    needleman_wunsch_algorithm [1; 2; 3] [1; 3] (-1) (-2) = Ok score ∧
    needleman_wunsch_algorithm [1; 2; 3] [1; 3] 0 0 = Ok score' ∧
    score ≤ score'.
Proof. apply needleman_wunsch_monotone; lia. Defined.

(** X14: [_alignment_score_init(m, n, sigma)] returns a table of
    [(m+1) × (n+1)] entries: [sigma * i] down the first column,
    [sigma * j] along the first row, and [0] everywhere else. *)
Theorem alignment_score_init_entries (m n : nat) (sigma : Z) :
  ∃ D, _alignment_score_init (Z.of_nat m) (Z.of_nat n) sigma = Ok D ∧
    ∀ i j : nat, cell2 D i j =
      if decide (i ≤ m ∧ j ≤ n)%nat
      then Some (if decide (j = 0%nat) then sigma * Z.of_nat i
                 else if decide (i = 0%nat) then sigma * Z.of_nat j
                 else 0)
      else None.
Proof.
  unfold _alignment_score_init.
  replace (Z.of_nat m + 1) with (Z.of_nat (S m)) by lia.
  replace (Z.of_nat n + 1) with (Z.of_nat (S n)) by lia.
  set (D0 := (λ _, (λ _, 0) <$> range (Z.of_nat (S n)))
               <$> range (Z.of_nat (S m))).
  assert (HD0 : ∀ i j, cell2 D0 i j =
    if decide (i ≤ m ∧ j ≤ n)%nat then Some 0 else None).
  { intros i j. unfold cell2, D0. rewrite lookup_fmap_range.
    destruct (decide (i < S m)%nat); simpl;
      [|by rewrite decide_False by lia].
    rewrite lookup_fmap_range. destruct (decide (j < S n)%nat);
      [by rewrite decide_True by lia|by rewrite decide_False by lia]. }
  destruct (for_range_invariant
    (λ k D, ∀ i j, cell2 D i j =
       if decide (i ≤ m ∧ j ≤ n)%nat
       then Some (if decide (j = 0%nat ∧ (i < k)%nat)
                  then sigma * Z.of_nat i else 0)
       else None) (S m)
    (λ i D, setitem2 D i 0 (sigma * i)) D0) as (D1 & -> & HD1).
  { intros i j. rewrite HD0. case_decide; [|done].
    by rewrite decide_False by lia. }
  { intros k D Hk HD.
    destruct (setitem2_cell D k 0 (sigma * Z.of_nat k)) as (D' & Hset & Hget).
    { rewrite HD, decide_True by lia. by eexists. }
    exists D'. split; [done|]. intros i j. rewrite Hget, HD.
    destruct (decide (i = k ∧ j = 0%nat)) as [[-> ->]|Hne].
    - rewrite decide_True by lia. by rewrite decide_True by lia.
    - destruct (decide (i ≤ m ∧ j ≤ n)%nat); [|done]. f_equal.
      destruct (decide (j = 0%nat ∧ (i < k)%nat));
        [by rewrite decide_True by lia|by rewrite decide_False by lia]. }
  cbn [mbind result_bind].
  destruct (for_range_invariant
    (λ k D, ∀ i j, cell2 D i j =
       if decide (i ≤ m ∧ j ≤ n)%nat
       then Some (if decide (j = 0%nat) then sigma * Z.of_nat i
                  else if decide (i = 0%nat ∧ (j < k)%nat)
                       then sigma * Z.of_nat j else 0)
       else None) (S n)
    (λ j D, setitem2 D 0 j (sigma * j)) D1) as (D2 & -> & HD2).
  { intros i j. rewrite HD1. destruct (decide (i ≤ m ∧ j ≤ n)%nat); [|done].
    f_equal. destruct (decide (j = 0%nat)).
    - by rewrite decide_True by lia.
    - rewrite decide_False by lia. by rewrite decide_False by lia. }
  { intros k D Hk HD.
    destruct (setitem2_cell D 0 k (sigma * Z.of_nat k)) as (D' & Hset & Hget).
    { rewrite HD, decide_True by lia. by eexists. }
    exists D'. split; [done|]. intros i j. rewrite Hget, HD.
    destruct (decide (i = 0%nat ∧ j = k)) as [[-> ->]|Hne].
    - rewrite decide_True by lia. f_equal.
      destruct (decide (k = 0%nat)) as [->|]; [lia|].
      by rewrite decide_True by lia.
    - destruct (decide (i ≤ m ∧ j ≤ n)%nat); [|done]. f_equal.
      destruct (decide (j = 0%nat)); [done|].
      destruct (decide (i = 0%nat ∧ (j < k)%nat));
        [by rewrite decide_True by lia|by rewrite decide_False by lia]. }
  exists D2. split; [done|]. intros i j. rewrite HD2.
  destruct (decide (i ≤ m ∧ j ≤ n)%nat); [|done]. f_equal.
  destruct (decide (j = 0%nat)); [done|].
  destruct (decide (i = 0%nat));
    [by rewrite decide_True by lia|by rewrite decide_False by lia].
Qed.

(** ** Further properties of the three-way routine *)

(** A property of the entries that holds on the boundary planes, and at
    an entry as soon as it holds at the diagonal neighbour and at the
    three neighbours with one index less, holds everywhere. *)
Lemma table3_ind (P : nat → nat → nat → Prop) :
  (∀ i j k, i = 0%nat ∨ j = 0%nat ∨ k = 0%nat → P i j k) →
  (∀ i j k, P i j k → P (S i) (S j) k → P (S i) j (S k) → P i (S j) (S k) →
     P (S i) (S j) (S k)) →
  ∀ i j k, P i j k.
Proof.
  intros Hboundary Hstep i j k.
  remember (i + j + k)%nat as size eqn:Hsize. revert i j k Hsize.
  induction size as [size IH] using lt_wf_ind.
  intros [|i] [|j] [|k] ->; try (apply Hboundary; auto; fail).
  apply Hstep.
  - apply (IH (i + j + k)%nat); [lia|done].
  - apply (IH (S i + S j + k)%nat); [lia|done].
  - apply (IH (S i + j + S k)%nat); [lia|done].
  - apply (IH (i + S j + S k)%nat); [lia|done].
Qed.

Section ThreeWayMore.

Context {A : Type} `{EqDecision A}.
Implicit Types (w l : list A) (x y z : A).

Lemma sublist_snoc_inv w l x y : w ++ [x] `sublist_of` l ++ [y] → w `sublist_of` l.
Proof.
  intros [Hw|(w' & Heq & Hw')]%sublist_snoc_r.
  - etrans; [|exact Hw]. apply sublist_inserts_r. done.
  - by apply app_inj_tail in Heq as [-> _].
Qed.

(** The enumeration yields the length of a longest common subsequence of
    the three sequences. *)
Lemma lcs3_length_spec (s1 s2 s3 : list A) :
  is_lcs3_length s1 s2 s3 (lcs3_length s1 s2 s3).
Proof.
  unfold lcs3_length.
  set (common := filter (λ w, is_subsequence w s2 && is_subsequence w s3)
                   (subsequences s1)).
  assert (Hcommon : ∀ w, w ∈ common ↔
    w `sublist_of` s1 ∧ w `sublist_of` s2 ∧ w `sublist_of` s3).
  { intros w. unfold common.
    rewrite list_elem_of_filter, elem_of_subsequences, andb_True,
      !Is_true_true, !is_subsequence_sublist. tauto. }
  split.
  - assert (Hne : length <$> common ≠ []).
    { assert (Hnil : [] ∈ common)
        by (apply Hcommon; repeat split; apply sublist_nil_l).
      intros Hempty%fmap_nil_inv. rewrite Hempty in Hnil. by inv Hnil. }
    apply max_list_elem_of, list_elem_of_fmap in Hne as (w & Hlen & Hw%Hcommon).
    exists w. destruct Hw as (? & ? & ?). done.
  - intros w Hw1 Hw2 Hw3. apply max_list_elem_of_le, list_elem_of_fmap_2.
    by apply Hcommon.
Qed.

Lemma is_lcs3_length_unique (s1 s2 s3 : list A) (n n' : nat) :
  is_lcs3_length s1 s2 s3 n → is_lcs3_length s1 s2 s3 n' → n = n'.
Proof.
  intros [(w & Hw1 & Hw2 & Hw3 & <-) Hmax]
    [(w' & Hw1' & Hw2' & Hw3' & <-) Hmax'].
  apply Nat.le_antisymm; auto.
Qed.

Lemma is_lcs3_length_nil (s1 s2 s3 : list A) :
  s1 = [] ∨ s2 = [] ∨ s3 = [] → is_lcs3_length s1 s2 s3 0.
Proof.
  intros Hnil. split.
  - exists []. repeat split; apply sublist_nil_l.
  - intros w Hw1 Hw2 Hw3.
    destruct Hnil as [->|[->| ->]];
      [apply sublist_nil_r in Hw1|apply sublist_nil_r in Hw2
      |apply sublist_nil_r in Hw3]; by subst.
Qed.

Lemma is_lcs3_length_snoc_eq (l1 l2 l3 : list A) x (nd : nat) :
  is_lcs3_length l1 l2 l3 nd →
  is_lcs3_length (l1 ++ [x]) (l2 ++ [x]) (l3 ++ [x]) (nd + 1).
Proof.
  intros [(wd & Hd1 & Hd2 & Hd3 & Hld) Hmaxd]. split.
  - exists (wd ++ [x]). repeat split; try (by apply sublist_app).
    rewrite length_app. simpl. lia.
  - intros w Hw1 Hw2 Hw3. destruct w as [|c w' _] using rev_ind; [simpl; lia|].
    rewrite length_app. simpl.
    specialize (Hmaxd w' (sublist_snoc_inv _ _ _ _ Hw1)
      (sublist_snoc_inv _ _ _ _ Hw2) (sublist_snoc_inv _ _ _ _ Hw3)). lia.
Qed.

Lemma is_lcs3_length_snoc_ne (l1 l2 l3 : list A) x y z (na nb nc : nat) :
  ¬ (x = y ∧ y = z) →
  is_lcs3_length (l1 ++ [x]) (l2 ++ [y]) l3 na →
  is_lcs3_length (l1 ++ [x]) l2 (l3 ++ [z]) nb →
  is_lcs3_length l1 (l2 ++ [y]) (l3 ++ [z]) nc →
  is_lcs3_length (l1 ++ [x]) (l2 ++ [y]) (l3 ++ [z])
    ((na `max` nb) `max` nc)%nat.
Proof.
  intros Hxyz [(wa & Ha1 & Ha2 & Ha3 & Hla) Hmaxa]
    [(wb & Hb1 & Hb2 & Hb3 & Hlb) Hmaxb] [(wc & Hc1 & Hc2 & Hc3 & Hlc) Hmaxc].
  split.
  - destruct (decide (nb ≤ na ∧ nc ≤ na)%nat);
      [exists wa; repeat split; [done|done|by apply sublist_inserts_r|lia]|].
    destruct (decide (nc ≤ nb)%nat).
    + exists wb. repeat split; [done|by apply sublist_inserts_r|done|lia].
    + exists wc. repeat split; [by apply sublist_inserts_r|done|done|lia].
  - intros w Hw1 Hw2 Hw3.
    destruct (proj1 (sublist_snoc_r _ _ _) Hw3) as [H3|(w3 & Heq3 & _)];
      [specialize (Hmaxa w Hw1 Hw2 H3); lia|].
    destruct (proj1 (sublist_snoc_r _ _ _) Hw2) as [H2|(w2 & Heq2 & _)];
      [specialize (Hmaxb w Hw1 H2 Hw3); lia|].
    destruct (proj1 (sublist_snoc_r _ _ _) Hw1) as [H1|(w1 & Heq1 & _)];
      [specialize (Hmaxc w H1 Hw2 Hw3); lia|].
    exfalso. apply Hxyz. subst w.
    apply app_inj_tail in Heq2 as [_ ->]. apply app_inj_tail in Heq1 as [_ ->].
    done.
Qed.

(** The entry of the specification's table at [i], [j], [k] is the
    length of a longest common subsequence of the first [i] symbols of
    [s1], the first [j] of [s2] and the first [k] of [s3]. *)
Lemma spec_Table3_lcs (s1 s2 s3 : list A) (i j k : nat) :
  (i ≤ length s1)%nat → (j ≤ length s2)%nat → (k ≤ length s3)%nat →
  ∃ n : nat, spec_Table3 s1 s2 s3 i j k = Z.of_nat n ∧
    is_lcs3_length (take i s1) (take j s2) (take k s3) n.
Proof.
  revert i j k. apply (table3_ind (λ i j k,
    (i ≤ length s1)%nat → (j ≤ length s2)%nat → (k ≤ length s3)%nat →
    ∃ n : nat, spec_Table3 s1 s2 s3 i j k = Z.of_nat n ∧
      is_lcs3_length (take i s1) (take j s2) (take k s3) n)).
  - intros i j k Hzero _ _ _. exists 0%nat.
    rewrite spec_Table3_boundary by done. split; [done|].
    apply is_lcs3_length_nil. destruct Hzero as [->|[->| ->]]; auto.
  - intros i j k IHd IHa IHb IHc Hi Hj Hk.
    destruct (lookup_lt_is_Some_2 s1 i) as [x Hx]; [lia|].
    destruct (lookup_lt_is_Some_2 s2 j) as [y Hy]; [lia|].
    destruct (lookup_lt_is_Some_2 s3 k) as [z Hz]; [lia|].
    rewrite spec_Table3_inner, Hx, Hy, Hz.
    rewrite (take_S_r _ _ _ Hx), (take_S_r _ _ _ Hy), (take_S_r _ _ _ Hz).
    destruct (decide (Some x = Some y ∧ Some y = Some z)) as [[Hxy Hyz]|Hne].
    + injection Hxy as <-. injection Hyz as <-.
      destruct IHd as (nd & -> & Hd); [lia..|].
      exists (nd + 1)%nat. split; [lia|]. by apply is_lcs3_length_snoc_eq.
    + destruct IHa as (na & -> & Ha); [lia..|].
      destruct IHb as (nb & -> & Hb); [lia..|].
      destruct IHc as (nc & -> & Hc); [lia..|].
      rewrite (take_S_r _ _ _ Hx), (take_S_r _ _ _ Hy) in Ha.
      rewrite (take_S_r _ _ _ Hx), (take_S_r _ _ _ Hz) in Hb.
      rewrite (take_S_r _ _ _ Hy), (take_S_r _ _ _ Hz) in Hc.
      exists ((na `max` nb) `max` nc)%nat. split; [unfold max3; lia|].
      apply is_lcs3_length_snoc_ne; [|done..].
      intros [-> ->]. by apply Hne.
Qed.

Lemma longest_common_subsequence_is_lcs3 (s1 s2 s3 : list A) :
  ∃ n : nat, longest_common_subsequence s1 s2 s3 = Ok (Z.of_nat n) ∧
    is_lcs3_length s1 s2 s3 n.
Proof.
  rewrite longest_common_subsequence_result.
  destruct (spec_Table3_lcs s1 s2 s3 (length s1) (length s2) (length s3))
    as (n & -> & Hn); [done..|].
  rewrite !take_ge in Hn by done. by exists n.
Qed.

Lemma needleman_wunsch_is_lcs (s1 s2 : list A) :
  ∃ n : nat, needleman_wunsch_algorithm s1 s2 0 0 = Ok (Z.of_nat n) ∧
    is_lcs_length s1 s2 n.
Proof.
  rewrite needleman_wunsch_result.
  destruct (spec_Table_lcs s1 s2 (length s1) (length s2)) as (n & -> & Hn);
    [done..|].
  rewrite !take_ge in Hn by done. by exists n.
Qed.

(** X15: [longest_common_subsequence] returns, on every three
    sequences, the length of their longest common subsequence as the
    reference enumeration gives it. *)
Theorem longest_common_subsequence_is_longest (s1 s2 s3 : list A) :
  longest_common_subsequence s1 s2 s3 = Ok (Z.of_nat (lcs3_length s1 s2 s3)).
Proof.
  destruct (longest_common_subsequence_is_lcs3 s1 s2 s3) as (n & -> & Hn).
  do 2 f_equal. eapply is_lcs3_length_unique; [exact Hn|apply lcs3_length_spec].
Qed.

Lemma is_lcs3_length_pair (s1 s2 s3 : list A) (n3 n2 : nat) :
  is_lcs3_length s1 s2 s3 n3 → is_lcs_length s1 s2 n2 → (n3 ≤ n2)%nat.
Proof.
  intros [(w & Hw1 & Hw2 & _ & <-) _] [_ Hmax]. by apply Hmax.
Qed.

Lemma is_lcs3_length_rotate (s1 s2 s3 : list A) (n : nat) :
  is_lcs3_length s1 s2 s3 n → is_lcs3_length s2 s3 s1 n.
Proof.
  intros [(w & Hw1 & Hw2 & Hw3 & Hlen) Hmax]. split.
  - by exists w.
  - intros w' H2 H3 H1. by apply Hmax.
Qed.

Lemma is_lcs3_length_repeat (s1 s2 : list A) (n : nat) :
  is_lcs3_length s1 s2 s2 n → is_lcs_length s1 s2 n.
Proof.
  intros [(w & Hw1 & Hw2 & _ & Hlen) Hmax]. split.
  - by exists w.
  - intros w' H1 H2. by apply Hmax.
Qed.

(** X16: given the same sequence twice, the three-way routine returns
    what the pairwise routine returns with zero penalties; given one
    sequence three times, it returns its length. *)
Theorem longest_common_subsequence_repeated (s1 s2 : list A) :
  longest_common_subsequence s1 s2 s2 =
    needleman_wunsch_algorithm s1 s2 0 0 ∧
  longest_common_subsequence s1 s1 s1 = Ok (len s1).
Proof.
  assert (Hpair : ∀ t1 t2 : list A, longest_common_subsequence t1 t2 t2 =
                                    needleman_wunsch_algorithm t1 t2 0 0).
  { intros t1 t2.
    destruct (longest_common_subsequence_is_lcs3 t1 t2 t2) as (n3 & -> & H3).
    destruct (needleman_wunsch_is_lcs t1 t2) as (n2 & -> & H2).
    do 2 f_equal. eapply is_lcs_length_unique; [|exact H2].
    by apply is_lcs3_length_repeat. }
  split; [apply Hpair|].
  rewrite Hpair, needleman_wunsch_result. by rewrite spec_Table_diagonal.
Qed.

(** X17: the result of the three-way routine is never negative and
    never above the result of the pairwise routine, with zero penalties,
    on any two of the three sequences. *)
Theorem longest_common_subsequence_at_most_pairwise (s1 s2 s3 : list A) :
  ∃ three p12 p23 p13 : Z,
    longest_common_subsequence s1 s2 s3 = Ok three ∧
    needleman_wunsch_algorithm s1 s2 0 0 = Ok p12 ∧
    needleman_wunsch_algorithm s2 s3 0 0 = Ok p23 ∧
    needleman_wunsch_algorithm s1 s3 0 0 = Ok p13 ∧
    0 ≤ three ∧ three ≤ p12 ∧ three ≤ p23 ∧ three ≤ p13.
Proof.
  destruct (longest_common_subsequence_is_lcs3 s1 s2 s3) as (n & -> & Hn).
  destruct (needleman_wunsch_is_lcs s1 s2) as (n12 & -> & H12).
  destruct (needleman_wunsch_is_lcs s2 s3) as (n23 & -> & H23).
  destruct (needleman_wunsch_is_lcs s1 s3) as (n13 & -> & H13).
  eexists _, _, _, _. repeat (split; [done|]).
  pose proof (is_lcs3_length_pair _ _ _ _ _ Hn H12).
  pose proof (is_lcs3_length_pair _ _ _ _ _ (is_lcs3_length_rotate _ _ _ _ Hn) H23).
  assert (n ≤ n13)%nat.
  { destruct Hn as [(w & Hw1 & _ & Hw3 & <-) _]. destruct H13 as [_ Hmax].
    by apply Hmax. }
  lia.
Qed.

(** X18: with zero penalties the pairwise score of two concatenations
    is at least the sum of the scores of the parts. *)
Theorem needleman_wunsch_concatenation (s1 s2 t1 t2 : list A) :
  ∃ whole first second : Z,
    needleman_wunsch_algorithm (s1 ++ t1) (s2 ++ t2) 0 0 = Ok whole ∧
    needleman_wunsch_algorithm s1 s2 0 0 = Ok first ∧
    needleman_wunsch_algorithm t1 t2 0 0 = Ok second ∧
    first + second ≤ whole.
Proof.
  destruct (needleman_wunsch_is_lcs (s1 ++ t1) (s2 ++ t2)) as (n & -> & _ & Hmax).
  destruct (needleman_wunsch_is_lcs s1 s2)
    as (ns & -> & (ws & Hs1 & Hs2 & <-) & _).
  destruct (needleman_wunsch_is_lcs t1 t2)
    as (nt & -> & (wt & Ht1 & Ht2 & <-) & _).
  eexists _, _, _. repeat (split; [done|]).
  specialize (Hmax (ws ++ wt) (sublist_app _ _ _ _ Hs1 Ht1)
                (sublist_app _ _ _ _ Hs2 Ht2)).
  rewrite length_app in Hmax. lia.
Qed.

End ThreeWayMore.
